(** * aurora_di: a shallow embedding of the dependency-injection engine

    The Python module [aurora_di] (src/aurora_di.py) is modelled over a small
    Python object store:
    - values [val] are immediates (None, ints, strings) or references to heap
      objects; object identity is the heap location;
    - heap objects are plain instances with an attribute dict, or instances
      of the definition classes [Reference], [Value], [List] and [Dict];
    - exceptions are the Python exception classes the code can raise;
    - effects are threaded through a state/error monad [M] whose state is the
      heap, the per-descriptor caches and an event trace recording attribute
      lookups, attribute writes and factory calls.

    The recursion of [List.resolve]/[Dict.resolve] is bounded by a fuel
    argument standing for Python's recursion limit: exhausting it raises
    [RecursionError]. *)

From Stdlib Require Import String Ascii ZArith List.
From stdpp Require Import base gmap list strings.
Import ListNotations.
Open Scope string_scope.
Open Scope list_scope.

(** ** Values, objects and exceptions *)

Inductive val :=
| VNone
| VInt (z : Z)
| VStr (s : string)
| VLoc (l : nat).

(** How instances of a plain class compare as dict keys: by identity (the
    default [object.__eq__]/[__hash__]), by a value (a class defining
    [__eq__] and [__hash__], e.g. a frozen dataclass), or unhashable (a class
    defining [__eq__] only). *)
Inductive eqmode :=
| ById
| ByValue (k : Z)
| Unhashable.

Inductive obj :=
| OPlain (m : eqmode) (attrs : list (string * val))
| OReference (reference : string)
| OValue (value : val)
| OList (items : list val)
| ODict (items : list (val * val)).

(** [AttributeError] is the failure the spec calls ReferenceNotFound. *)
Inductive exn :=
| AttributeError (o : val) (name : string)
| TypeError
| IndexError
| KeyError
| RuntimeError
| RecursionError
| Raised (v : val).

Inductive event :=
| EGetattr (o : val) (name : string)
| ESetattr (o : val) (name : string) (v : val)
| ECall (args : list val)
| EFactoryRaised (e : exn).

Record state := mkState {
  heap : gmap nat obj;
  caches : gmap nat (list (val * val));
  trace : list event
}.

Inductive result (A : Type) :=
| ROk (a : A) (s : state)
| RErr (e : exn) (s : state).
Arguments ROk {A} _ _.
Arguments RErr {A} _ _.

Definition M (A : Type) := state -> result A.

Definition ret {A} (a : A) : M A := fun st => ROk a st.
Definition raise {A} (e : exn) : M A := fun st => RErr e st.
Definition bind {A B} (m : M A) (k : A -> M B) : M B := fun st =>
  match m st with
  | ROk a st' => k a st'
  | RErr e st' => RErr e st'
  end.

Notation "'let!' x := m 'in' k" := (bind m (fun x => k))
  (at level 200, x name, m at level 100, k at level 200).

Definition rstate {A} (r : result A) : state :=
  match r with ROk _ s => s | RErr _ s => s end.

Definition log (ev : event) (st : state) : state :=
  mkState (heap st) (caches st) (trace st ++ [ev]).

Definition set_heap (h : gmap nat obj) (st : state) : state :=
  mkState h (caches st) (trace st).

(** ** Attribute access *)

Fixpoint assoc {A} (name : string) (attrs : list (string * A)) : option A :=
  match attrs with
  | [] => None
  | (n, v) :: rest => if String.eqb n name then Some v else assoc name rest
  end.

Fixpoint assoc_store {A} (name : string) (v : A) (attrs : list (string * A))
    : list (string * A) :=
  match attrs with
  | [] => [(name, v)]
  | (n, w) :: rest =>
      if String.eqb n name then (n, v) :: rest else (n, w) :: assoc_store name v rest
  end.

(** The attributes an object exposes to [getattr]: the instance dict of a
    plain object, the [reference]/[value] field of a definition object.
    Built-in attributes of immediates and methods are not modelled. *)
Definition lookup_attr (h : gmap nat obj) (o : val) (name : string) : option val :=
  match o with
  | VLoc l =>
      match h !! l with
      | Some (OPlain _ attrs) => assoc name attrs
      | Some (OReference r) => if String.eqb name "reference" then Some (VStr r) else None
      | Some (OValue v) => if String.eqb name "value" then Some v else None
      | _ => None
      end
  | _ => None
  end.

(** [getattr(o, name)] *)
Definition getattr (o : val) (name : string) : M val := fun st =>
  let st' := log (EGetattr o name) st in
  match lookup_attr (heap st) o name with
  | Some v => ROk v st'
  | None => RErr (AttributeError o name) st'
  end.

(** [hasattr(o, 'resolve')]: the definition classes have the method; a
    plain object has it when its instance dict holds a [resolve] entry. *)
Definition has_resolve (h : gmap nat obj) (o : val) : bool :=
  match o with
  | VLoc l =>
      match h !! l with
      | Some (OPlain _ attrs) => if assoc "resolve" attrs then true else false
      | Some _ => true
      | None => false
      end
  | _ => false
  end.

(** [str.split('.')] *)
Fixpoint split_dot (s : string) : list string :=
  match s with
  | EmptyString => [""]
  | String c rest =>
      match split_dot rest with
      | [] => []
      | seg :: segs =>
          if Ascii.eqb c "." then "" :: seg :: segs else String c seg :: segs
      end
  end.

(** The loop of [Reference.resolve]. *)
Fixpoint walk (target : val) (parts : list string) : M val :=
  match parts with
  | [] => ret target
  | part :: rest => let! t := getattr target part in walk t rest
  end.

(** [Reference.resolve] *)
Definition reference_resolve (reference : string) (container : val) : M val :=
  walk container (split_dot reference).

(** ** Normalization *)

(** The definition a raw value stands for after [_normalize_dependency]:
    the object itself ([DObj]) or a freshly built [Reference]/[Value]. *)
Inductive dep :=
| DObj (v : val)
| DRef (reference : string)
| DVal (value : val).

(** [_normalize_dependency] *)
Definition normalize_dependency (h : gmap nat obj) (dependency : val) : dep :=
  if has_resolve h dependency then DObj dependency
  else match dependency with
       | VStr s => DRef s
       | _ => DVal dependency
       end.

(** ** Dict keys *)

Inductive hkey :=
| KNone
| KInt (z : Z)
| KStr (s : string)
| KId (l : nat)
| KVal (k : Z).

#[global] Instance hkey_eq_dec : EqDecision hkey.
Proof. solve_decision. Defined.

(** [hash(key)], refined so that two keys are the same dict key exactly
    when their [hkey]s are equal; [None] for an unhashable key (instances
    of [list] and [dict] subclasses, classes without [__hash__]). *)
Definition hash_key (h : gmap nat obj) (key : val) : option hkey :=
  match key with
  | VNone => Some KNone
  | VInt z => Some (KInt z)
  | VStr s => Some (KStr s)
  | VLoc l =>
      match h !! l with
      | Some (OPlain ById _) => Some (KId l)
      | Some (OPlain (ByValue k) _) => Some (KVal k)
      | Some (OPlain Unhashable _) => None
      | Some (OList _) => None
      | Some (ODict _) => None
      | _ => Some (KId l)
      end
  end.

(** [d[key]] on an insertion-ordered dict, given the key's hash. *)
Fixpoint dict_find (h : gmap nat obj) (hk : hkey) (kvs : list (val * val)) : option val :=
  match kvs with
  | [] => None
  | (k, v) :: rest =>
      if decide (hash_key h k = Some hk) then Some v else dict_find h hk rest
  end.

(** [d[key] = v]: an existing key keeps its key object and position, a new
    key is appended. *)
Fixpoint dict_store (h : gmap nat obj) (hk : hkey) (key v : val)
    (kvs : list (val * val)) : list (val * val) :=
  match kvs with
  | [] => [(key, v)]
  | (k, w) :: rest =>
      if decide (hash_key h k = Some hk) then (k, v) :: rest
      else (k, w) :: dict_store h hk key v rest
  end.

(** [self[i] = v] on a [List] object. *)
Definition list_setitem (l i : nat) (v : val) : M unit := fun st =>
  match heap st !! l with
  | Some (OList xs) =>
      if decide (i < length xs)
      then ROk tt (set_heap (<[l := OList (<[i := v]> xs)]> (heap st)) st)
      else RErr IndexError st
  | _ => RErr TypeError st
  end.

(** [self[key] = v] on a [Dict] object. *)
Definition dict_setitem (l : nat) (key v : val) : M unit := fun st =>
  match heap st !! l with
  | Some (ODict kvs) =>
      match hash_key (heap st) key with
      | Some hk =>
          ROk tt (set_heap (<[l := ODict (dict_store (heap st) hk key v kvs)]> (heap st)) st)
      | None => RErr TypeError st
      end
  | _ => RErr TypeError st
  end.

(** ** Resolution *)

Section Loops.
(** [res d container] resolves a normalized entry one recursion level
    deeper. *)
Variable res : dep -> val -> M val.

(** [List.resolve]: [for i, value in enumerate(self)], reading the list
    afresh at each step; [n] bounds the iterations by the length the list
    had when the loop started. *)
Fixpoint list_loop (l : nat) (container : val) (n i : nat) : M val := fun st =>
  match n with
  | 0 => ROk (VLoc l) st
  | S n' =>
      match heap st !! l with
      | Some (OList xs) =>
          match xs !! i with
          | None => ROk (VLoc l) st
          | Some value =>
              match res (normalize_dependency (heap st) value) container st with
              | ROk r st1 =>
                  match list_setitem l i r st1 with
                  | ROk _ st2 => list_loop l container n' (S i) st2
                  | RErr e st2 => RErr e st2
                  end
              | RErr e st1 => RErr e st1
              end
          end
      | _ => RErr TypeError st
      end
  end.

(** [Dict.resolve]: [for key, value in self.items()], with the dict
    iterator's check that the size has not changed since it started. *)
Fixpoint dict_loop (l : nat) (container : val) (size0 n i : nat) : M val := fun st =>
  match n with
  | 0 => ROk (VLoc l) st
  | S n' =>
      match heap st !! l with
      | Some (ODict kvs) =>
          if negb (Nat.eqb (length kvs) size0) then RErr RuntimeError st else
          match kvs !! i with
          | None => ROk (VLoc l) st
          | Some (key, value) =>
              match res (normalize_dependency (heap st) value) container st with
              | ROk r st1 =>
                  match dict_setitem l key r st1 with
                  | ROk _ st2 => dict_loop l container size0 n' (S i) st2
                  | RErr e st2 => RErr e st2
                  end
              | RErr e st1 => RErr e st1
              end
          end
      | _ => RErr TypeError st
      end
  end.
End Loops.

(** [d.resolve(container)] for a normalized definition [d]. A plain object
    whose [resolve] attribute is data raises [TypeError] (not callable). *)
Fixpoint resolve (fuel : nat) (d : dep) (container : val) {struct fuel} : M val :=
  fun st =>
  match d with
  | DRef p => reference_resolve p container st
  | DVal v => ROk v st
  | DObj o =>
      match o with
      | VLoc l =>
          match heap st !! l with
          | Some (OReference p) => reference_resolve p container st
          | Some (OValue v) => ROk v st
          | Some (OList xs) =>
              match fuel with
              | 0 => RErr RecursionError st
              | S k => list_loop (resolve k) l container (length xs) 0 st
              end
          | Some (ODict kvs) =>
              match fuel with
              | 0 => RErr RecursionError st
              | S k => dict_loop (resolve k) l container (length kvs) (length kvs) 0 st
              end
          | Some (OPlain _ attrs) =>
              match assoc "resolve" attrs with
              | Some _ => RErr TypeError st
              | None => RErr (AttributeError o "resolve") st
              end
          | None => RErr (AttributeError o "resolve") st
          end
      | _ => RErr (AttributeError o "resolve") st
      end
  end.

(** ** Injection *)

(** A target factory: a Python callable applied to positional arguments; it
    may read and update the object store, and returns or raises. *)
Inductive fresult :=
| FReturn (v : val) (h : gmap nat obj)
| FRaise (e : exn) (h : gmap nat obj).

Definition factory := list val -> gmap nat obj -> fresult.

(** [target_factory( *args)], recorded in the trace. *)
Definition call_factory (target_factory : factory) (args : list val) : M val := fun st =>
  let st1 := log (ECall args) st in
  match target_factory args (heap st1) with
  | FReturn v h => ROk v (set_heap h st1)
  | FRaise e h => RErr e (log (EFactoryRaised e) (set_heap h st1))
  end.

(** [setattr(target, name, v)] on a plain object. Other targets are not
    modelled and raise [AttributeError]. *)
Definition setattr (o : val) (name : string) (v : val) : M unit := fun st =>
  match o with
  | VLoc l =>
      match heap st !! l with
      | Some (OPlain m attrs) =>
          ROk tt (log (ESetattr o name v)
                    (set_heap (<[l := OPlain m (assoc_store name v attrs)]> (heap st)) st))
      | _ => RErr (AttributeError o name) st
      end
  | _ => RErr (AttributeError o name) st
  end.

(** [_normalize_dependency(raw).resolve(container)] *)
Definition resolve_raw (fuel : nat) (raw container : val) : M val := fun st =>
  resolve fuel (normalize_dependency (heap st) raw) container st.

(** [list(map(lambda item: item.resolve(container), arg_spec))] over the
    lazily normalized [arg_spec]. *)
Fixpoint resolve_args (fuel : nat) (container : val) (arg_spec : list val) : M (list val) :=
  match arg_spec with
  | [] => ret []
  | raw :: rest =>
      let! v := resolve_raw fuel raw container in
      let! vs := resolve_args fuel container rest in
      ret (v :: vs)
  end.

(** [attr_spec.update(map(lambda key, value: (key, _normalize_dependency(value)),
    attr_spec.items()))]: [map] calls the two-parameter lambda with each
    item as its single argument, so [update] raises [TypeError] on the first
    item; an empty [attr_spec] is left as it is. *)
Definition normalize_attr_spec (attr_spec : list (string * val)) : M (list (string * dep)) :=
  match attr_spec with
  | [] => ret []
  | _ :: _ => raise TypeError
  end.

(** [for key in list(attr_spec): setattr(target, key, attr_spec[key].resolve(container))] *)
Fixpoint assign_attrs (fuel : nat) (container target : val) (spec : list (string * dep)) : M unit :=
  match spec with
  | [] => ret tt
  | (key, d) :: rest =>
      let! v := resolve fuel d container in
      let! _ := setattr target key v in
      assign_attrs fuel container target rest
  end.

(** [inject(target_factory, container, *arg_spec, **attr_spec)] *)
Definition inject (fuel : nat) (target_factory : factory) (container : val)
    (arg_spec : list val) (attr_spec : list (string * val)) : M val :=
  let! attrs := normalize_attr_spec attr_spec in
  let! args := resolve_args fuel container arg_spec in
  let! target := call_factory target_factory args in
  let! _ := assign_attrs fuel container target attrs in
  ret target.

(** ** The descriptor built by [create_descriptor] *)

(** The [cache] dict of descriptor [d] (empty until first written). *)
Definition cache_of (st : state) (d : nat) : list (val * val) :=
  default [] (caches st !! d).

(** [self.cache[instance]], a [KeyError] being reported as [None]. *)
Definition cache_get (d : nat) (instance : val) : M (option val) := fun st =>
  match hash_key (heap st) instance with
  | Some hk => ROk (dict_find (heap st) hk (cache_of st d)) st
  | None => RErr TypeError st
  end.

(** [self.cache[instance] = v] *)
Definition cache_set (d : nat) (instance v : val) : M unit := fun st =>
  match hash_key (heap st) instance with
  | Some hk =>
      ROk tt (mkState (heap st)
                (<[d := dict_store (heap st) hk instance v (cache_of st d)]> (caches st))
                (trace st))
  | None => RErr TypeError st
  end.

Inductive got :=
| GDescriptor (d : nat)
| GValue (v : val).

(** [Descriptor.__get__(self, instance, owner)] for the descriptor object
    [d] created by [create_descriptor(target_factory, *arg_spec, **attr_spec)];
    [instance] is [None] for a read through the class. *)
Definition descriptor_get (fuel : nat) (target_factory : factory) (arg_spec : list val)
    (attr_spec : list (string * val)) (d : nat) (instance : option val) : M got :=
  match instance with
  | None => ret (GDescriptor d)
  | Some inst =>
      let! cached := cache_get d inst in
      match cached with
      | Some v => ret (GValue v)
      | None =>
          let! v := inject fuel target_factory inst arg_spec attr_spec in
          let! _ := cache_set d inst v in
          let! again := cache_get d inst in
          match again with
          | Some v' => ret (GValue v')
          | None => raise KeyError
          end
      end
  end.

(** ** Sample object stores *)

(** A container [C] (object 1) with [C.greeting = "hello"]. *)
Definition sample_heap : gmap nat obj :=
  <[1 := OPlain ById [("greeting", VStr "hello"); ("hello", VInt 5)]]> ∅.

Definition sample_state : state := mkState sample_heap ∅ [].

(** [lambda x: SimpleNamespace(x=x)], allocating its result as object 100. *)
Definition namespace_factory : factory := fun args h =>
  FReturn (VLoc 100) (<[100 := OPlain ById [("x", default VNone (head args))]]> h).

(** [lambda *args: SimpleNamespace()], allocating a fresh object. *)
Definition fresh_loc (h : gmap nat obj) : nat :=
  map_fold (fun k _ acc => Nat.max (S k) acc) 0 h.

Definition alloc_factory : factory := fun _ h =>
  let l := fresh_loc h in FReturn (VLoc l) (<[l := OPlain ById []]> h).

(** [lambda *args: raise E(1)]. *)
Definition raising_factory : factory := fun _ h => FRaise (Raised (VInt 1)) h.

(** Two distinct owners (objects 1 and 2) that compare equal, as two
    [Owner(7)] instances of a frozen dataclass would. *)
Definition equal_owners_state : state :=
  mkState (<[1 := OPlain (ByValue 7) []]> (<[2 := OPlain (ByValue 7) []]> ∅)) ∅ [].

(** A [List(["greeting"])] definition (object 2) next to the container. *)
Definition list_state : state :=
  mkState (<[2 := OList [VStr "greeting"]]> sample_heap) ∅ [].

(** A [Dict({"a": "greeting", 1: 42})] definition (object 3) next to the
    container. *)
Definition dict_state : state :=
  mkState (<[3 := ODict [(VStr "a", VStr "greeting"); (VInt 1, VInt 42)]]> sample_heap) ∅ [].

(** A [List] (object 2) whose only entry is itself, as after [l = List();
    l.append(l)]. *)
Definition self_list_state : state :=
  mkState (<[2 := OList [VLoc 2]]> sample_heap) ∅ [].

(** A [List(["hello"])] definition (object 2): its entry resolves to the
    integer [C.hello]. *)
Definition int_list_state : state :=
  mkState (<[2 := OList [VStr "hello"]]> sample_heap) ∅ [].

(** Whether a string contains a dot. *)
Fixpoint has_dot (s : string) : bool :=
  match s with
  | EmptyString => false
  | String c rest => Ascii.eqb c "." || has_dot rest
  end.

(** Attribute writes and factory calls in a trace. *)
Definition is_setattr (ev : event) : bool :=
  match ev with ESetattr _ _ _ => true | _ => false end.

Definition count_calls (evs : list event) : nat :=
  length (List.filter (fun ev => match ev with ECall _ => true | _ => false end) evs).

(** The kind of a heap object, forgetting the entries of [List]/[Dict]
    objects: the part of the store that resolution never changes. *)
Definition kind_of (o : option obj) : option obj :=
  match o with
  | Some (OList _) => Some (OList [])
  | Some (ODict _) => Some (ODict [])
  | o => o
  end.

Definition same_kinds (st st' : state) : Prop :=
  forall P, kind_of (heap st' !! P) = kind_of (heap st !! P).

Definition lookup_event (ev : event) : Prop := exists o n, ev = EGetattr o n.

(** An attribute lookup or a factory call. *)
Definition lookup_or_call (ev : event) : Prop :=
  lookup_event ev \/ exists args, ev = ECall args.

(** [st'] differs from [st] by attribute lookups only, as far as the caches
    and the trace go. *)
Definition only_lookups (st st' : state) : Prop :=
  caches st' = caches st /\
  exists evs, trace st' = (trace st ++ evs)%list /\ Forall lookup_event evs.

(** [List]/[Dict] objects, and the entry at a position of one. *)
Definition composite (h : gmap nat obj) (P : nat) : Prop :=
  match h !! P with
  | Some (OList _) | Some (ODict _) => True
  | _ => False
  end.

#[global] Instance composite_dec (h : gmap nat obj) (P : nat) : Decision (composite h P).
Proof. unfold composite. destruct (h !! P) as [[] |]; apply _. Defined.

Definition entry_at (h : gmap nat obj) (P p : nat) : option val :=
  match h !! P with
  | Some (OList xs) => xs !! p
  | Some (ODict kvs) => snd <$> (kvs !! p)
  | _ => None
  end.

(** The frames of a nest of [List.resolve]/[Dict.resolve] calls: each frame
    [(P, p)] is an object whose loop is at position [p], and the entry there
    is an object under resolution, an outer frame or [top]. *)
Definition chain_ok (h : gmap nat obj) (F : list (nat * nat)) (top : nat) : Prop :=
  forall P p, In (P, p) F ->
  exists Q, entry_at h P p = Some (VLoc Q) /\ (In Q (map fst F) \/ Q = top).

(** The run of a [List.resolve] loop entry by entry: in index order, the
    entry is normalized and resolved, and its result is written back at the
    same index of the same list object. *)
Inductive list_steps (k : nat) (c : val) (l : nat) :
    nat -> list val -> list val -> state -> state -> Prop :=
| list_steps_nil i st : list_steps k c l i [] [] st st
| list_steps_cons i x xs r rs st st1 st2 st3 :
    resolve k (normalize_dependency (heap st) x) c st = ROk r st1 ->
    list_setitem l i r st1 = ROk tt st2 ->
    list_steps k c l (S i) xs rs st2 st3 ->
    list_steps k c l i (x :: xs) (r :: rs) st st3.

(** The same for [Dict.resolve], in insertion order, writing back under the
    same key. *)
Inductive dict_steps (k : nat) (c : val) (l : nat) :
    list (val * val) -> list val -> state -> state -> Prop :=
| dict_steps_nil st : dict_steps k c l [] [] st st
| dict_steps_cons key x kvs r rs st st1 st2 st3 :
    resolve k (normalize_dependency (heap st) x) c st = ROk r st1 ->
    dict_setitem l key r st1 = ROk tt st2 ->
    dict_steps k c l kvs rs st2 st3 ->
    dict_steps k c l ((key, x) :: kvs) (r :: rs) st st3.

(** An entry that [_normalize_dependency] wraps in a [Value]: neither a
    string nor an object exposing [resolve]. *)
Definition inert (h : gmap nat obj) (v : val) : bool :=
  negb (has_resolve h v) && match v with VStr _ => false | _ => true end.

(** The representation invariant of a Python dict: keys are hashable and
    pairwise distinct. *)
Definition dict_keys_ok (h : gmap nat obj) (kvs : list (val * val)) : Prop :=
  (forall i k v, kvs !! i = Some (k, v) -> hash_key h k <> None) /\
  (forall i j k1 k2 v1 v2, kvs !! i = Some (k1, v1) -> kvs !! j = Some (k2, v2) ->
     hash_key h k1 = hash_key h k2 -> i = j).

(** A successful resolve of [X] under the frames [F] never re-enters a
    [List]/[Dict] that is being resolved, and leaves those untouched. *)
Definition resolve_chain_prop (k : nat) : Prop :=
  forall c X st F,
  chain_ok (heap st) F X ->
  match resolve k (DObj (VLoc X)) c st with
  | ROk _ st' =>
      ~ In X (map fst F) /\
      forall P, In P (map fst F) -> heap st' !! P = heap st !! P
  | RErr _ _ => True
  end.

(** * Properties *)

Example inject_greeting :
  match inject 10 namespace_factory (VLoc 1) [VStr "greeting"] [] sample_state with
  | ROk (VLoc t) st => lookup_attr (heap st) (VLoc t) "x"
  | _ => None
  end = Some (VStr "hello").
Proof. reflexivity. Qed.

Example inject_literal :
  match inject 10 namespace_factory (VLoc 1) [VLoc 2] []
          (set_heap (<[2 := OValue (VStr "literal")]> sample_heap) sample_state) with
  | ROk (VLoc t) st => lookup_attr (heap st) (VLoc t) "x"
  | _ => None
  end = Some (VStr "literal").
Proof. reflexivity. Qed.

(** ** Normalization *)

(** C4: [_normalize_dependency] is total and pure (a function of the store,
    changing nothing): a value exposing [resolve] is returned itself, a
    string [s] becomes a [Reference] with path [s], anything else becomes a
    [Value] holding it. *)
Theorem normalize_dependency_spec (h : gmap nat obj) (v : val) :
  (forall s, normalize_dependency h (VStr s) = DRef s) /\
  ((has_resolve h v = true /\ normalize_dependency h v = DObj v) \/
   (has_resolve h v = false /\ exists s, v = VStr s /\ normalize_dependency h v = DRef s) \/
   (has_resolve h v = false /\ (forall s, v <> VStr s) /\ normalize_dependency h v = DVal v)).
Proof.
  split; [reflexivity |].
  unfold normalize_dependency.
  destruct (has_resolve h v) eqn:Hr; [left; auto | right].
  destruct v; [right | right | left | right]; split; auto;
    try (split; [intros s Hs; discriminate | reflexivity]).
  exists s; auto.
Qed.

(** ** Injection *)

(** C1 (code defect): with at least one named argument, [inject] raises
    [TypeError] from [attr_spec.update(map(lambda key, value: ..., ...))]
    before resolving anything or calling the factory, leaving the state as
    it was; no attribute is ever assigned. *)
Theorem inject_named_raises (fuel : nat) (f : factory) (container : val)
    (arg_spec : list val) (key : string) (raw : val) (rest : list (string * val))
    (st : state) :
  inject fuel f container arg_spec ((key, raw) :: rest) st = RErr TypeError st.
Proof. reflexivity. Qed.

(** C10: with no positional and no named argument, [inject] calls the
    factory once with no argument and returns its result as it is; the only
    event is that call, so no attribute is written. *)
Theorem inject_empty_spec (fuel : nat) (f : factory) (container : val) (st : state) :
  inject fuel f container [] [] st =
  match f [] (heap st) with
  | FReturn v h => ROk v (mkState h (caches st) (trace st ++ [ECall []]))
  | FRaise e h =>
      RErr e (mkState h (caches st) (trace st ++ [ECall []; EFactoryRaised e]))
  end.
Proof.
  unfold inject, bind, normalize_attr_spec, ret; simpl.
  unfold call_factory, log, set_heap; simpl.
  destruct (f [] (heap st)); simpl; [reflexivity |].
  rewrite <- app_assoc. reflexivity.
Qed.

Lemma walk_missing (o : val) (p : string) (ps : list string) (st : state) :
  lookup_attr (heap st) o p = None ->
  walk o (p :: ps) st = RErr (AttributeError o p) (log (EGetattr o p) st).
Proof. intros H. cbn [walk]. unfold bind, getattr. rewrite H. reflexivity. Qed.

(** C5: [inject(factory, C, "missing.path")] on a container without a
    [missing] attribute raises [AttributeError] (ReferenceNotFound) at the
    first segment, and the factory is never called: the only event is the
    failed lookup. *)
Theorem inject_missing_reference (fuel : nat) (f : factory) (C : val) (st : state)
    (Hmissing : lookup_attr (heap st) C "missing" = None) :
  inject fuel f C [VStr "missing.path"] [] st =
  RErr (AttributeError C "missing") (log (EGetattr C "missing") st).
Proof.
  assert (Hr : resolve fuel (normalize_dependency (heap st) (VStr "missing.path")) C st
                = RErr (AttributeError C "missing") (log (EGetattr C "missing") st)).
  { destruct fuel; apply walk_missing; exact Hmissing. }
  unfold inject, bind, normalize_attr_spec, ret, resolve_args, resolve_raw, bind.
  rewrite Hr. reflexivity.
Qed.

(** ** References *)

Lemma split_dot_cons (s : string) : exists seg segs, split_dot s = seg :: segs.
Proof.
  induction s as [| c s IH]; simpl; [eauto |].
  destruct IH as (seg & segs & ->). destruct (Ascii.eqb c "."); eauto.
Qed.

Lemma split_dot_app (a b : string) :
  has_dot a = false -> split_dot (a ++ "." ++ b)%string = a :: split_dot b.
Proof.
  induction a as [| c a IH]; intros Ha.
  - change (split_dot (String "." b) = "" :: split_dot b). simpl.
    destruct (split_dot_cons b) as (seg & segs & ->). reflexivity.
  - change (split_dot (String c (a ++ "." ++ b)%string) = String c a :: split_dot b).
    simpl in Ha. apply orb_false_iff in Ha as [Hc Ha]. simpl.
    rewrite (IH Ha), Hc. reflexivity.
Qed.

(** C9: [Reference("a.b")] resolved against [C] is [Reference("b")]
    resolved against [C.a] (after the lookup of [a], logged in the trace),
    for an attribute name [a] without a dot. *)
Theorem reference_resolve_compositional (a b : string) (C v : val) (st : state)
    (Ha : has_dot a = false) (Hv : lookup_attr (heap st) C a = Some v) :
  reference_resolve (a ++ "." ++ b)%string C st =
  reference_resolve b v (log (EGetattr C a) st).
Proof.
  unfold reference_resolve. rewrite (split_dot_app a b Ha). simpl.
  unfold bind, getattr. rewrite Hv. reflexivity.
Qed.

Lemma reference_resolve_compositional_witness :
  has_dot "greeting" = false /\
  lookup_attr sample_heap (VLoc 1) "greeting" = Some (VStr "hello") /\
  reference_resolve ("greeting" ++ "." ++ "x")%string (VLoc 1) sample_state =
  reference_resolve "x" (VStr "hello") (log (EGetattr (VLoc 1) "greeting") sample_state).
Proof.
  split; [reflexivity | split; [reflexivity |]].
  apply (reference_resolve_compositional "greeting" "x" (VLoc 1) (VStr "hello") sample_state);
    reflexivity.
Defined.

Lemma inject_missing_reference_witness :
  lookup_attr sample_heap (VLoc 1) "missing" = None /\
  inject 3 namespace_factory (VLoc 1) [VStr "missing.path"] [] sample_state =
  RErr (AttributeError (VLoc 1) "missing") (log (EGetattr (VLoc 1) "missing") sample_state).
Proof.
  split; [reflexivity |].
  apply (inject_missing_reference 3 namespace_factory (VLoc 1) sample_state). reflexivity.
Defined.

(** ** Counterexamples *)


(** C3 fails: after [List(["greeting"])] resolves to [["hello"]], the
    second [resolve] on the same List treats the string ["hello"] as a
    Reference again and looks it up on the container. *)
Lemma list_second_resolve_looks_up :
  exists st1 st2,
    resolve 10 (DObj (VLoc 2)) (VLoc 1) list_state = ROk (VLoc 2) st1 /\
    resolve 10 (DObj (VLoc 2)) (VLoc 1) st1 = ROk (VLoc 2) st2 /\
    trace st2 = (trace st1 ++ [EGetattr (VLoc 1) "hello"])%list.
Proof.
  eexists; eexists; split; [vm_compute; reflexivity |].
  split; [vm_compute; reflexivity |]. vm_compute. reflexivity.
Qed.

(** ** What resolution preserves *)

Ltac split_result :=
  match goal with
  | |- context [match ?m with ROk _ _ => _ | RErr _ _ => _ end] =>
      let E := fresh "E" in destruct m eqn:E
  end.

Section Preservation.
Variable R : state -> state -> Prop.
Hypothesis R_refl : forall st, R st st.
Hypothesis R_trans : forall s1 s2 s3, R s1 s2 -> R s2 s3 -> R s1 s3.
Hypothesis R_list_setitem : forall l i v st, R st (rstate (list_setitem l i v st)).
Hypothesis R_dict_setitem : forall l k v st, R st (rstate (dict_setitem l k v st)).
Hypothesis R_reference : forall p c st, R st (rstate (reference_resolve p c st)).

Lemma list_loop_R (res : dep -> val -> M val) (l : nat) (c : val) :
  (forall d st, R st (rstate (res d c st))) ->
  forall n i st, R st (rstate (list_loop res l c n i st)).
Proof.
  intros Hres n. induction n as [| n IH]; intros i st; simpl; [apply R_refl |].
  destruct (heap st !! l) as [[] |]; simpl; try apply R_refl.
  destruct (items !! i) as [value |]; simpl; [| apply R_refl].
  pose proof (Hres (normalize_dependency (heap st) value) st) as H1.
  split_result; simpl in *; [| exact H1].
  pose proof (R_list_setitem l i a s) as H2.
  split_result; simpl in *; eauto.
Qed.

Lemma dict_loop_R (res : dep -> val -> M val) (l : nat) (c : val) (size0 : nat) :
  (forall d st, R st (rstate (res d c st))) ->
  forall n i st, R st (rstate (dict_loop res l c size0 n i st)).
Proof.
  intros Hres n. induction n as [| n IH]; intros i st; simpl; [apply R_refl |].
  destruct (heap st !! l) as [[] |]; simpl; try apply R_refl.
  destruct (negb _); simpl; [apply R_refl |].
  destruct (items !! i) as [[key value] |]; simpl; [| apply R_refl].
  pose proof (Hres (normalize_dependency (heap st) value) st) as H1.
  split_result; simpl in *; [| exact H1].
  pose proof (R_dict_setitem l key a s) as H2.
  split_result; simpl in *; eauto.
Qed.

Lemma resolve_R (fuel : nat) : forall d c st, R st (rstate (resolve fuel d c st)).
Proof.
  induction fuel as [| k IH]; intros d c st;
    destruct d as [[] | p | v]; simpl; try apply R_refl; try apply R_reference;
    destruct (heap st !! l) as [[] |]; simpl; try apply R_refl; try apply R_reference;
    try (destruct (assoc "resolve" attrs); apply R_refl).
  - apply list_loop_R. intros; apply IH.
  - apply dict_loop_R. intros; apply IH.
Qed.
End Preservation.

Lemma only_lookups_refl (st : state) : only_lookups st st.
Proof. split; [reflexivity | exists []; rewrite app_nil_r; auto]. Qed.

Lemma only_lookups_trans (s1 s2 s3 : state) :
  only_lookups s1 s2 -> only_lookups s2 s3 -> only_lookups s1 s3.
Proof.
  intros [C1 (e1 & T1 & F1)] [C2 (e2 & T2 & F2)]. split; [congruence |].
  exists (e1 ++ e2)%list. rewrite T2, T1, app_assoc. split; [reflexivity |].
  apply Forall_app; auto.
Qed.

Lemma only_lookups_set_heap (h : gmap nat obj) (st : state) : only_lookups st (set_heap h st).
Proof. split; [reflexivity | exists []; rewrite app_nil_r; auto]. Qed.

Lemma walk_only_lookups (parts : list string) :
  forall target st, only_lookups st (rstate (walk target parts st)).
Proof.
  induction parts as [| part rest IH]; intros target st; simpl; [apply only_lookups_refl |].
  unfold bind, getattr. destruct (lookup_attr (heap st) target part) as [v |].
  - eapply only_lookups_trans; [| apply IH].
    split; [reflexivity | exists [EGetattr target part]; split; [reflexivity |]].
    constructor; [eexists; eexists; reflexivity | constructor].
  - simpl. split; [reflexivity | exists [EGetattr target part]; split; [reflexivity |]].
    constructor; [eexists; eexists; reflexivity | constructor].
Qed.

(** Resolution changes neither the descriptor caches nor the trace, apart
    from appending attribute lookups. *)
Lemma resolve_only_lookups (fuel : nat) (d : dep) (c : val) (st : state) :
  only_lookups st (rstate (resolve fuel d c st)).
Proof.
  apply resolve_R.
  - apply only_lookups_refl.
  - apply only_lookups_trans.
  - intros l i v st'. unfold list_setitem.
    destruct (heap st' !! l) as [[] |]; try destruct (decide _); simpl;
      first [apply only_lookups_refl | apply only_lookups_set_heap].
  - intros l k v st'. unfold dict_setitem.
    destruct (heap st' !! l) as [[] |]; try destruct (hash_key _ _); simpl;
      first [apply only_lookups_refl | apply only_lookups_set_heap].
  - intros p c' st'. apply walk_only_lookups.
Qed.

Lemma walk_heap (parts : list string) :
  forall target st, heap (rstate (walk target parts st)) = heap st.
Proof.
  induction parts as [| part rest IH]; intros target st; simpl; [reflexivity |].
  unfold bind, getattr. destruct (lookup_attr (heap st) target part); simpl; auto.
  rewrite IH. reflexivity.
Qed.

Lemma list_setitem_same_kinds (l i : nat) (v : val) (st : state) :
  same_kinds st (rstate (list_setitem l i v st)).
Proof.
  intros P. unfold list_setitem.
  destruct (heap st !! l) as [[] |] eqn:El; try destruct (decide _); simpl; auto.
  destruct (decide (l = P)) as [-> |].
  - rewrite lookup_insert_eq, El. reflexivity.
  - rewrite lookup_insert_ne; auto.
Qed.

Lemma dict_setitem_same_kinds (l : nat) (k v : val) (st : state) :
  same_kinds st (rstate (dict_setitem l k v st)).
Proof.
  intros P. unfold dict_setitem.
  destruct (heap st !! l) as [[] |] eqn:El; try destruct (hash_key _ _); simpl; auto.
  destruct (decide (l = P)) as [-> |].
  - rewrite lookup_insert_eq, El. reflexivity.
  - rewrite lookup_insert_ne; auto.
Qed.

(** Resolution never changes the kind of an object, nor any object other
    than [List] and [Dict] entries. *)
Lemma resolve_same_kinds (fuel : nat) (d : dep) (c : val) (st : state) :
  same_kinds st (rstate (resolve fuel d c st)).
Proof.
  apply resolve_R.
  - intros st' P. reflexivity.
  - intros s1 s2 s3 H12 H23 P. rewrite H23. apply H12.
  - apply list_setitem_same_kinds.
  - apply dict_setitem_same_kinds.
  - intros p c' st' P. unfold reference_resolve. rewrite walk_heap. reflexivity.
Qed.

(** ** Resolution never re-enters an object it is resolving *)

Lemma entry_at_composite (h : gmap nat obj) (P p : nat) (v : val) :
  entry_at h P p = Some v -> composite h P.
Proof. unfold entry_at, composite. destruct (h !! P) as [[] |]; auto; discriminate. Qed.

Lemma chain_ok_mono (h h' : gmap nat obj) (F : list (nat * nat)) (top : nat) :
  (forall P p, In (P, p) F -> entry_at h' P p = entry_at h P p) ->
  chain_ok h F top -> chain_ok h' F top.
Proof.
  intros Heq Hc P p Hin. destruct (Hc P p Hin) as (Q & HQ & Hm).
  exists Q. rewrite Heq; auto.
Qed.

Lemma chain_member_composite (h : gmap nat obj) (F : list (nat * nat)) (top Q : nat) :
  chain_ok h F top -> In Q (map fst F) -> composite h Q.
Proof.
  intros Hc HQ. apply in_map_iff in HQ as ([Q' p] & <- & Hin).
  destruct (Hc Q' p Hin) as (Q'' & He & _). eapply entry_at_composite; eauto.
Qed.

Lemma has_resolve_composite (h : gmap nat obj) (Y : nat) :
  composite h Y -> has_resolve h (VLoc Y) = true.
Proof. unfold composite, has_resolve. destruct (h !! Y) as [[] |]; tauto. Qed.

Lemma normalize_obj (h : gmap nat obj) (v w : val) :
  normalize_dependency h v = DObj w -> v = w.
Proof.
  unfold normalize_dependency. destruct (has_resolve h v); [congruence |].
  destruct v; discriminate.
Qed.

(** Resolving anything but a [List]/[Dict] object leaves the store as it is. *)
Lemma resolve_plain_heap (fuel : nat) (d : dep) (c : val) (st : state) :
  (forall X, d = DObj (VLoc X) -> ~ composite (heap st) X) ->
  heap (rstate (resolve fuel d c st)) = heap st.
Proof.
  intros Hd. destruct fuel; destruct d as [[] | p | v]; simpl; auto;
    try (unfold reference_resolve; apply walk_heap);
    specialize (Hd l eq_refl); unfold composite in Hd;
    destruct (heap st !! l) as [[] |]; simpl; try tauto;
    try (unfold reference_resolve; apply walk_heap);
    destruct (assoc "resolve" attrs); reflexivity.
Qed.

(** One step of a [List]/[Dict] loop of [X] at position [i]: a successful
    resolution of the entry leaves [X] and the outer frames untouched, and
    [i] is not a position where an outer frame of [X] is waiting. *)
Lemma entry_step (k : nat) (IH : resolve_chain_prop k) (c : val) (X i : nat)
    (F : list (nat * nat)) (value : val) (st : state) :
  composite (heap st) X -> entry_at (heap st) X i = Some value -> chain_ok (heap st) F X ->
  match resolve k (normalize_dependency (heap st) value) c st with
  | ROk _ st1 =>
      ~ In (X, i) F /\
      forall P, In P (X :: map fst F) -> heap st1 !! P = heap st !! P
  | RErr _ _ => True
  end.
Proof.
  intros HX He Hc.
  assert (Hcomp : forall Y, value = VLoc Y -> composite (heap st) Y ->
            normalize_dependency (heap st) value = DObj (VLoc Y)).
  { intros Y -> HY. unfold normalize_dependency. rewrite has_resolve_composite; auto. }
  assert (Hcase : (exists Y, value = VLoc Y /\ composite (heap st) Y) \/
                  (forall Y, value = VLoc Y -> ~ composite (heap st) Y)).
  { destruct value as [| | | Y]; try (right; intros; discriminate).
    destruct (decide (composite (heap st) Y)); [left; eauto | right; intros Y' [= <-]; auto]. }
  destruct Hcase as [(Y & -> & HY) | Hno].
  - (* a [List]/[Dict] entry: one level deeper, with frame [(X, i)] *)
    rewrite (Hcomp Y eq_refl HY).
    assert (Hc' : chain_ok (heap st) (F ++ [(X, i)]) Y).
    { intros P p Hin. apply in_app_or in Hin as [Hin | [Heq | []]].
      - destruct (Hc P p Hin) as (Q & HQ & Hm). exists Q. split; [exact HQ |].
        left. rewrite map_app, in_app_iff. destruct Hm as [Hm | ->]; [left; exact Hm |].
        right; left; reflexivity.
      - injection Heq as <- <-. exists Y. split; [exact He | right; reflexivity]. }
    specialize (IH c Y st _ Hc'). destruct (resolve k (DObj (VLoc Y)) c st) as [r st1 |]; auto.
    destruct IH as [HYn Hheap]. rewrite map_app in HYn, Hheap. split.
    + intros Hin. destruct (Hc X i Hin) as (Q & HQ & Hm). rewrite He in HQ.
      injection HQ as <-. apply HYn. apply in_or_app.
      destruct Hm as [Hm | ->]; [left; exact Hm | right; left; reflexivity].
    + intros P [<- | HP]; apply Hheap; apply in_or_app; [right; left; reflexivity | left; exact HP].
  - (* anything else: the store does not change *)
    pose proof (resolve_plain_heap k (normalize_dependency (heap st) value) c st) as Hp.
    destruct (resolve k (normalize_dependency (heap st) value) c st) as [r st1 |]; auto.
    simpl in Hp. rewrite Hp.
    2:{ intros X' HX'. apply normalize_obj in HX'. apply Hno. exact HX'. }
    split; [| auto].
    intros Hin. destruct (Hc X i Hin) as (Q & HQ & Hm). rewrite He in HQ.
    injection HQ as HQ. apply (Hno Q HQ). destruct Hm as [Hm | ->]; [| exact HX].
    eapply chain_member_composite; eauto.
Qed.

Lemma dict_store_found (h : gmap nat obj) (hk : hkey) (key r : val) :
  forall kvs i value, kvs !! i = Some (key, value) -> hash_key h key = Some hk ->
  exists q k0 v0, q <= i /\ kvs !! q = Some (k0, v0) /\ hash_key h k0 = Some hk /\
    dict_store h hk key r kvs = <[q := (k0, r)]> kvs.
Proof.
  induction kvs as [| [k0 v0] kvs IH]; intros i value Hi Hk; [discriminate |].
  simpl. destruct (decide (hash_key h k0 = Some hk)).
  - exists 0, k0, v0. split; [lia | split; [reflexivity | split; [assumption | reflexivity]]].
  - destruct i as [| i]; simpl in Hi.
    + injection Hi as -> ->. contradiction.
    + destruct (IH i value Hi Hk) as (q & k1 & v1 & Hq & Hl & Hh1 & ->).
      exists (S q), k1, v1. split; [lia | split; [exact Hl | split; [exact Hh1 | reflexivity]]].
Qed.

Lemma not_in_frames (h : gmap nat obj) (F : list (nat * nat)) (X : nat) :
  ~ composite h X -> chain_ok h F X -> ~ In X (map fst F).
Proof. intros HX Hc Hin. apply HX. eapply chain_member_composite; eauto. Qed.

Lemma list_loop_chain (k : nat) (IH : resolve_chain_prop k) (c : val) (X : nat)
    (F : list (nat * nat)) :
  forall n i st xs,
  heap st !! X = Some (OList xs) -> length xs = i + n ->
  chain_ok (heap st) F X -> (forall p, In (X, p) F -> i <= p) ->
  match list_loop (resolve k) X c n i st with
  | ROk _ st' =>
      ~ In X (map fst F) /\ forall P, In P (map fst F) -> heap st' !! P = heap st !! P
  | RErr _ _ => True
  end.
Proof.
  induction n as [| n IHn]; intros i st xs HX Hlen Hc Hge; simpl.
  - split; [| auto].
    intros Hin. apply in_map_iff in Hin as ([X' p] & Heq & Hin). simpl in Heq; subst X'.
    destruct (Hc X p Hin) as (Q & HQ & _). unfold entry_at in HQ. rewrite HX in HQ.
    apply lookup_lt_Some in HQ. specialize (Hge p Hin). lia.
  - rewrite HX.
    destruct (xs !! i) as [value |] eqn:Hv.
    2:{ apply lookup_ge_None in Hv. lia. }
    assert (HXc : composite (heap st) X) by (unfold composite; rewrite HX; exact I).
    assert (He : entry_at (heap st) X i = Some value) by (unfold entry_at; rewrite HX; exact Hv).
    pose proof (entry_step k IH c X i F value st HXc He Hc) as Hs.
    destruct (resolve k (normalize_dependency (heap st) value) c st) as [r st1 | e st1];
      [| exact I].
    destruct Hs as [Hnot Hheap].
    assert (HX1 : heap st1 !! X = Some (OList xs))
      by (rewrite Hheap; [exact HX | left; reflexivity]).
    unfold list_setitem. rewrite HX1.
    destruct (decide (i < length xs)) as [Hi | Hi]; [| lia].
    set (st2 := set_heap (<[X:=OList (<[i:=r]> xs)]> (heap st1)) st1).
    assert (Hframes : forall P p, In (P, p) F -> entry_at (heap st2) P p = entry_at (heap st) P p).
    { intros P p Hin. unfold st2, entry_at; simpl. destruct (decide (X = P)) as [<- |].
      - rewrite lookup_insert_eq, HX. apply list_lookup_insert_ne.
        intros ->. contradiction.
      - rewrite lookup_insert_ne by auto. rewrite Hheap; [reflexivity |].
        right. apply in_map_iff. exists (P, p); auto. }
    specialize (IHn (S i) st2 (<[i:=r]> xs)).
    destruct (list_loop (resolve k) X c n (S i) st2) as [a st' |]; [| exact I].
    destruct IHn as [HXn Hh].
    + unfold st2; simpl. apply lookup_insert_eq.
    + rewrite length_insert. lia.
    + eapply chain_ok_mono; [| exact Hc]. exact Hframes.
    + intros p Hin. specialize (Hge p Hin). destruct (decide (p = i)) as [-> |]; [contradiction | lia].
    + split; [exact HXn |]. intros P HP. rewrite Hh by exact HP.
      unfold st2; simpl. rewrite lookup_insert_ne by (intros ->; contradiction).
      apply Hheap. right. exact HP.
Qed.

Lemma dict_loop_chain (k : nat) (IH : resolve_chain_prop k) (c : val) (X : nat)
    (F : list (nat * nat)) (size0 : nat) :
  forall n i st kvs,
  heap st !! X = Some (ODict kvs) -> length kvs = i + n ->
  chain_ok (heap st) F X -> (forall p, In (X, p) F -> i <= p) ->
  match dict_loop (resolve k) X c size0 n i st with
  | ROk _ st' =>
      ~ In X (map fst F) /\ forall P, In P (map fst F) -> heap st' !! P = heap st !! P
  | RErr _ _ => True
  end.
Proof.
  induction n as [| n IHn]; intros i st kvs HX Hlen Hc Hge; simpl.
  - split; [| auto].
    intros Hin. apply in_map_iff in Hin as ([X' p] & Heq & Hin). simpl in Heq; subst X'.
    destruct (Hc X p Hin) as (Q & HQ & _). unfold entry_at in HQ. rewrite HX in HQ.
    destruct (kvs !! p) eqn:Hp; [| discriminate].
    apply lookup_lt_Some in Hp. specialize (Hge p Hin). lia.
  - rewrite HX. destruct (negb _); [exact I |].
    destruct (kvs !! i) as [[key value] |] eqn:Hv.
    2:{ apply lookup_ge_None in Hv. lia. }
    assert (HXc : composite (heap st) X) by (unfold composite; rewrite HX; exact I).
    assert (He : entry_at (heap st) X i = Some value)
      by (unfold entry_at; rewrite HX, Hv; reflexivity).
    pose proof (entry_step k IH c X i F value st HXc He Hc) as Hs.
    destruct (resolve k (normalize_dependency (heap st) value) c st) as [r st1 | e st1];
      [| exact I].
    destruct Hs as [Hnot Hheap].
    assert (HX1 : heap st1 !! X = Some (ODict kvs))
      by (rewrite Hheap; [exact HX | left; reflexivity]).
    unfold dict_setitem. rewrite HX1.
    destruct (hash_key (heap st1) key) as [hk |] eqn:Hk; [| exact I].
    destruct (dict_store_found (heap st1) hk key r kvs i value Hv Hk)
      as (q & k0 & v0 & Hq & Hl & _ & ->).
    set (st2 := set_heap (<[X:=ODict (<[q:=(k0, r)]> kvs)]> (heap st1)) st1).
    assert (Hframes : forall P p, In (P, p) F -> entry_at (heap st2) P p = entry_at (heap st) P p).
    { intros P p Hin. unfold st2, entry_at; simpl. destruct (decide (X = P)) as [<- |].
      - rewrite lookup_insert_eq, HX. rewrite list_lookup_insert_ne; [reflexivity |].
        specialize (Hge p Hin). intros ->.
        assert (p = i) as -> by lia. contradiction.
      - rewrite lookup_insert_ne by auto. rewrite Hheap; [reflexivity |].
        right. apply in_map_iff. exists (P, p); auto. }
    specialize (IHn (S i) st2 (<[q:=(k0, r)]> kvs)).
    destruct (dict_loop (resolve k) X c size0 n (S i) st2) as [a st' |]; [| exact I].
    destruct IHn as [HXn Hh].
    + unfold st2; simpl. apply lookup_insert_eq.
    + rewrite length_insert. lia.
    + eapply chain_ok_mono; [| exact Hc]. exact Hframes.
    + intros p Hin. specialize (Hge p Hin). destruct (decide (p = i)) as [-> |]; [contradiction | lia].
    + split; [exact HXn |]. intros P HP. rewrite Hh by exact HP.
      unfold st2; simpl. rewrite lookup_insert_ne by (intros ->; contradiction).
      apply Hheap. right. exact HP.
Qed.

(** A successful resolution of [X] inside the frames [F] does not re-enter
    any object of [F] (nor is [X] one of them) and leaves them untouched:
    re-entering an object under resolution reaches the entry its loop is
    waiting on and recurses until the recursion limit. *)
Lemma resolve_chain (k : nat) : resolve_chain_prop k.
Proof.
  induction k as [| k IH]; intros c X st F Hc; simpl;
    destruct (heap st !! X) as [[] |] eqn:HX; try exact I;
    try (destruct (assoc "resolve" attrs); exact I);
    try (assert (Hn : ~ In X (map fst F))
           by (apply (not_in_frames (heap st) F X); [unfold composite; rewrite HX; tauto | exact Hc]));
    try (split; [exact Hn | auto]; fail);
    try (unfold reference_resolve; pose proof (walk_heap (split_dot reference) c st) as Hw;
         destruct (walk c (split_dot reference) st); [| exact I];
         simpl in Hw; rewrite Hw; split; [exact Hn | auto]).
  - apply (list_loop_chain k IH c X F (length items) 0 st items); auto. lia.
  - apply (dict_loop_chain k IH c X F (length items) (length items) 0 st items); auto. lia.
Qed.

(** ** Resolution of a [List]/[Dict] is in place *)

Lemma insert_app_length {A} (done xs : list A) (x y : A) :
  <[length done := y]> (done ++ x :: xs) = done ++ y :: xs.
Proof. induction done as [| z done IH]; simpl; [reflexivity | rewrite IH; reflexivity]. Qed.

Lemma hash_key_same_kinds (h h' : gmap nat obj) (k : val) :
  (forall P, kind_of (h' !! P) = kind_of (h !! P)) -> hash_key h' k = hash_key h k.
Proof.
  intros H. destruct k as [| | | l]; simpl; auto. specialize (H l).
  destruct (h !! l) as [[] |], (h' !! l) as [[] |]; simpl in H; try discriminate;
    try (injection H as <-); auto; try (injection H as <- <-); auto.
Qed.

Lemma list_loop_in_place (k : nat) (c : val) (l : nat) :
  forall n i st done xs r st',
  heap st !! l = Some (OList (done ++ xs)) -> length done = i -> length xs = n ->
  list_loop (resolve k) l c n i st = ROk r st' ->
  r = VLoc l /\
  exists ys, list_steps k c l i xs ys st st' /\ heap st' !! l = Some (OList (done ++ ys)).
Proof.
  induction n as [| n IHn]; intros i st done xs r st' Hl Hdone Hlen Hrun; simpl in Hrun.
  - destruct xs; [| discriminate]. injection Hrun as <- <-.
    split; [reflexivity |]. exists []. split; [constructor | exact Hl].
  - destruct xs as [| x xs]; [discriminate |]. simpl in Hlen.
    rewrite Hl in Hrun.
    assert (Hx : (done ++ x :: xs) !! i = Some x).
    { subst i. rewrite lookup_app_r by lia. rewrite Nat.sub_diag. reflexivity. }
    rewrite Hx in Hrun.
    assert (He : entry_at (heap st) l i = Some x) by (unfold entry_at; rewrite Hl; exact Hx).
    assert (Hcomp : composite (heap st) l) by (unfold composite; rewrite Hl; exact I).
    assert (Hc : chain_ok (heap st) [] l) by (intros P p []).
    pose proof (entry_step k (resolve_chain k) c l i [] x st Hcomp He Hc) as Hs.
    destruct (resolve k (normalize_dependency (heap st) x) c st) as [r0 st1 | e st1] eqn:Hr;
      [| discriminate].
    destruct Hs as [_ Hheap].
    assert (Hl1 : heap st1 !! l = Some (OList (done ++ x :: xs)))
      by (rewrite Hheap; [exact Hl | left; reflexivity]).
    assert (Hset : list_setitem l i r0 st1 =
                   ROk tt (set_heap (<[l := OList (done ++ r0 :: xs)]> (heap st1)) st1)).
    { unfold list_setitem. rewrite Hl1. destruct (decide _) as [_ | Hi].
      - subst i. rewrite insert_app_length. reflexivity.
      - exfalso. apply Hi. rewrite length_app. simpl. lia. }
    rewrite Hset in Hrun.
    destruct (IHn (S i) (set_heap (<[l := OList (done ++ r0 :: xs)]> (heap st1)) st1)
                (done ++ [r0]) xs r st') as [Hrv (ys & Hsteps & Hfin)];
      [simpl; rewrite lookup_insert_eq, <- app_assoc; reflexivity
      | rewrite length_app; simpl; lia | lia | exact Hrun |].
    split; [exact Hrv |]. exists (r0 :: ys). split.
    + econstructor; [exact Hr | exact Hset | exact Hsteps].
    + rewrite Hfin, <- app_assoc. reflexivity.
Qed.

Lemma lookup_map_fst (kvs : list (val * val)) (i : nat) :
  map fst kvs !! i = fst <$> kvs !! i.
Proof. revert i. induction kvs as [| kv kvs IH]; intros [| i]; simpl; auto. Qed.

Lemma dict_keys_ok_transfer (h h' : gmap nat obj) (kvs kvs' : list (val * val)) :
  (forall P, kind_of (h' !! P) = kind_of (h !! P)) -> map fst kvs' = map fst kvs ->
  dict_keys_ok h kvs -> dict_keys_ok h' kvs'.
Proof.
  intros Hk Hm [Hhash Huniq].
  assert (Hl : forall i k v, kvs' !! i = Some (k, v) -> exists v', kvs !! i = Some (k, v')).
  { intros i k v Hi. pose proof (lookup_map_fst kvs' i) as E. rewrite Hi, Hm in E.
    rewrite lookup_map_fst in E. destruct (kvs !! i) as [[k' v'] |]; [| discriminate].
    simpl in E. injection E as ->. eauto. }
  split.
  - intros i k v Hi. destruct (Hl i k v Hi) as [v' Hv']. rewrite (hash_key_same_kinds h h') by exact Hk.
    eapply Hhash; eauto.
  - intros i j k1 k2 v1 v2 Hi Hj Heq.
    destruct (Hl i k1 v1 Hi) as [w1 Hw1], (Hl j k2 v2 Hj) as [w2 Hw2].
    rewrite !(hash_key_same_kinds h h') in Heq by exact Hk. eapply Huniq; eauto.
Qed.

Lemma dict_loop_in_place (k : nat) (c : val) (l size0 : nat) :
  forall n i st done kvs r st',
  heap st !! l = Some (ODict (done ++ kvs)) -> length done = i -> length kvs = n ->
  length (done ++ kvs) = size0 -> dict_keys_ok (heap st) (done ++ kvs) ->
  dict_loop (resolve k) l c size0 n i st = ROk r st' ->
  r = VLoc l /\
  exists rs, dict_steps k c l kvs rs st st' /\ length rs = length kvs /\
    heap st' !! l = Some (ODict (done ++ combine (map fst kvs) rs)).
Proof.
  induction n as [| n IHn];
    intros i st done kvs r st' Hl Hdone Hlen Hsize Hok Hrun; simpl in Hrun.
  - destruct kvs; [| discriminate]. injection Hrun as <- <-.
    split; [reflexivity |]. exists []. split; [constructor | split; [reflexivity |]].
    simpl. exact Hl.
  - destruct kvs as [| [key x] kvs]; [discriminate |]. simpl in Hlen.
    rewrite Hl, Hsize, Nat.eqb_refl in Hrun. simpl in Hrun.
    assert (Hx : (done ++ (key, x) :: kvs) !! i = Some (key, x)).
    { subst i. rewrite lookup_app_r by lia. rewrite Nat.sub_diag. reflexivity. }
    rewrite Hx in Hrun.
    assert (He : entry_at (heap st) l i = Some x)
      by (unfold entry_at; rewrite Hl, Hx; reflexivity).
    assert (Hcomp : composite (heap st) l) by (unfold composite; rewrite Hl; exact I).
    assert (Hc : chain_ok (heap st) [] l) by (intros P p []).
    pose proof (entry_step k (resolve_chain k) c l i [] x st Hcomp He Hc) as Hs.
    pose proof (resolve_same_kinds k (normalize_dependency (heap st) x) c st) as Hkinds.
    destruct (resolve k (normalize_dependency (heap st) x) c st) as [r0 st1 | e st1] eqn:Hr;
      [| discriminate].
    destruct Hs as [_ Hheap]. simpl in Hkinds.
    assert (Hl1 : heap st1 !! l = Some (ODict (done ++ (key, x) :: kvs)))
      by (rewrite Hheap; [exact Hl | left; reflexivity]).
    destruct Hok as [Hhash Huniq].
    destruct (hash_key (heap st) key) as [hk |] eqn:Hk; [| exfalso; eapply Hhash; eauto].
    assert (Hk1 : hash_key (heap st1) key = Some hk)
      by (rewrite (hash_key_same_kinds (heap st)) by exact Hkinds; exact Hk).
    destruct (dict_store_found (heap st1) hk key r0 _ i x Hx Hk1)
      as (q & k0 & v0 & Hq & Hlq & Hk0 & Hstore).
    rewrite (hash_key_same_kinds (heap st)) in Hk0 by exact Hkinds.
    assert (q = i) as ->.
    { apply (Huniq q i k0 key v0 x Hlq Hx). congruence. }
    rewrite Hx in Hlq. injection Hlq as <- <-.
    assert (Hset : dict_setitem l key r0 st1 =
                   ROk tt (set_heap (<[l := ODict (done ++ (key, r0) :: kvs)]> (heap st1)) st1)).
    { unfold dict_setitem. rewrite Hl1, Hk1, Hstore. subst i. rewrite insert_app_length.
      reflexivity. }
    rewrite Hset in Hrun.
    set (st2 := set_heap (<[l := ODict (done ++ (key, r0) :: kvs)]> (heap st1)) st1).
    assert (Hkinds2 : forall P, kind_of (heap st2 !! P) = kind_of (heap st !! P)).
    { intros P. pose proof (dict_setitem_same_kinds l key r0 st1 P) as H2.
      rewrite Hset in H2. simpl in H2. rewrite <- (Hkinds P). exact H2. }
    destruct (IHn (S i) st2 (done ++ [(key, r0)]) kvs r st') as [Hrv (rs & Hsteps & Hrs & Hfin)].
    + unfold st2; simpl. rewrite lookup_insert_eq, <- app_assoc. reflexivity.
    + rewrite length_app; simpl; lia.
    + lia.
    + rewrite <- app_assoc, <- Hsize, !length_app. reflexivity.
    + eapply dict_keys_ok_transfer; [exact Hkinds2 | | split; [exact Hhash | exact Huniq]].
      rewrite <- app_assoc, !map_app. reflexivity.
    + exact Hrun.
    + split; [exact Hrv |]. exists (r0 :: rs). split; [| split].
      * econstructor; [exact Hr | exact Hset | exact Hsteps].
      * simpl. rewrite Hrs. reflexivity.
      * rewrite Hfin, <- app_assoc. reflexivity.
Qed.

Lemma list_steps_length (k : nat) (c : val) (l : nat) :
  forall i xs ys st st', list_steps k c l i xs ys st st' -> length ys = length xs.
Proof. intros i xs ys st st' H. induction H; simpl; congruence. Qed.

Lemma map_fst_combine (ks rs : list val) :
  length rs = length ks -> map fst (combine ks rs) = ks.
Proof.
  revert rs. induction ks as [| k ks IH]; intros [| r rs] H; simpl in *; try discriminate;
    [reflexivity | rewrite IH by lia; reflexivity].
Qed.

(** C8: [List.resolve] and [Dict.resolve] return the definition object
    itself. A list of length n is updated in place, index by index in order,
    each entry replaced by its resolved value, and keeps length n; a dict
    (with hashable, pairwise distinct keys) is updated in place, value by
    value in insertion order, and keeps its keys in their order. *)
Theorem resolve_in_place (fuel l : nat) (c : val) (st st' : state) (r : val) :
  resolve fuel (DObj (VLoc l)) c st = ROk r st' ->
  (forall xs, heap st !! l = Some (OList xs) ->
     r = VLoc l /\ exists k ys, fuel = S k /\ list_steps k c l 0 xs ys st st' /\
       heap st' !! l = Some (OList ys) /\ length ys = length xs) /\
  (forall kvs, heap st !! l = Some (ODict kvs) -> dict_keys_ok (heap st) kvs ->
     r = VLoc l /\ exists k rs, fuel = S k /\ dict_steps k c l kvs rs st st' /\
       heap st' !! l = Some (ODict (combine (map fst kvs) rs)) /\
       map fst (combine (map fst kvs) rs) = map fst kvs /\ length rs = length kvs).
Proof.
  intros Hrun. split.
  - intros xs Hl. destruct fuel as [| k]; simpl in Hrun; rewrite Hl in Hrun; [discriminate |].
    destruct (list_loop_in_place k c l (length xs) 0 st [] xs r st' Hl eq_refl eq_refl Hrun)
      as [Hr (ys & Hsteps & Hfin)].
    split; [exact Hr |]. exists k, ys.
    split; [reflexivity | split; [exact Hsteps | split; [exact Hfin |]]].
    eapply list_steps_length; eauto.
  - intros kvs Hl Hok. destruct fuel as [| k]; simpl in Hrun; rewrite Hl in Hrun; [discriminate |].
    destruct (dict_loop_in_place k c l (length kvs) (length kvs) 0 st [] kvs r st'
                Hl eq_refl eq_refl eq_refl Hok Hrun) as [Hr (rs & Hsteps & Hlen & Hfin)].
    split; [exact Hr |]. exists k, rs.
    split; [reflexivity | split; [exact Hsteps | split; [exact Hfin | split; [| exact Hlen]]]].
    apply map_fst_combine. rewrite length_map. exact Hlen.
Qed.

Lemma resolve_in_place_witness :
  (exists st1 ys, resolve 10 (DObj (VLoc 2)) (VLoc 1) list_state = ROk (VLoc 2) st1 /\
     heap st1 !! 2 = Some (OList ys) /\ length ys = 1) /\
  (exists st1 rs, resolve 10 (DObj (VLoc 3)) (VLoc 1) dict_state = ROk (VLoc 3) st1 /\
     heap st1 !! 3 = Some (ODict (combine [VStr "a"; VInt 1] rs)) /\ length rs = 2).
Proof.
  split.
  - assert (H : resolve 10 (DObj (VLoc 2)) (VLoc 1) list_state =
                ROk (VLoc 2) (rstate (resolve 10 (DObj (VLoc 2)) (VLoc 1) list_state)))
      by (vm_compute; reflexivity).
    destruct (proj1 (resolve_in_place 10 2 (VLoc 1) list_state _ (VLoc 2) H)
                [VStr "greeting"] eq_refl) as [_ (k & ys & _ & _ & Hfin & Hlen)].
    exists (rstate (resolve 10 (DObj (VLoc 2)) (VLoc 1) list_state)), ys. auto.
  - assert (H : resolve 10 (DObj (VLoc 3)) (VLoc 1) dict_state =
                ROk (VLoc 3) (rstate (resolve 10 (DObj (VLoc 3)) (VLoc 1) dict_state)))
      by (vm_compute; reflexivity).
    destruct (proj2 (resolve_in_place 10 3 (VLoc 1) dict_state _ (VLoc 3) H)
                [(VStr "a", VStr "greeting"); (VInt 1, VInt 42)] eq_refl)
      as [_ (k & rs & _ & _ & Hfin & _ & Hlen)].
    + split.
      * intros [| [| i]] key v Hi; simpl in Hi; try discriminate;
          injection Hi as <- <-; vm_compute; discriminate.
      * intros [| [| i]] [| [| j]] k1 k2 v1 v2 Hi Hj; simpl in Hi, Hj; try discriminate;
          injection Hi as <- <-; injection Hj as <- <-; vm_compute; congruence.
    + exists (rstate (resolve 10 (DObj (VLoc 3)) (VLoc 1) dict_state)), rs. auto.
Defined.

Lemma resolve_dval (k : nat) (v c : val) (st : state) : resolve k (DVal v) c st = ROk v st.
Proof. destruct k; reflexivity. Qed.

Lemma set_heap_same (st : state) : set_heap (heap st) st = st.
Proof. destruct st; reflexivity. Qed.

Lemma list_loop_inert (k : nat) (c : val) (l : nat) :
  forall n i st done xs,
  heap st !! l = Some (OList (done ++ xs)) -> length done = i -> length xs = n ->
  forallb (inert (heap st)) xs = true ->
  list_loop (resolve k) l c n i st = ROk (VLoc l) st.
Proof.
  induction n as [| n IHn]; intros i st done xs Hl Hdone Hlen Hin; [reflexivity |].
  destruct xs as [| y xs]; [discriminate |]. simpl in Hlen, Hin.
  apply andb_prop in Hin as [Hy Hin]. simpl. rewrite Hl.
  assert (Hx : (done ++ y :: xs) !! i = Some y).
  { subst i. rewrite lookup_app_r by lia. rewrite Nat.sub_diag. reflexivity. }
  rewrite Hx.
  assert (Hn : normalize_dependency (heap st) y = DVal y).
  { unfold inert in Hy. apply andb_prop in Hy as [Hr Hs]. unfold normalize_dependency.
    destruct (has_resolve (heap st) y); [discriminate |]. destruct y; simpl in Hs; congruence. }
  rewrite Hn, resolve_dval.
  assert (Hset : list_setitem l i y st = ROk tt st).
  { unfold list_setitem. rewrite Hl. rewrite decide_True.
    - rewrite list_insert_id by exact Hx. rewrite insert_id by exact Hl.
      rewrite set_heap_same. reflexivity.
    - rewrite length_app. simpl. lia. }
  rewrite Hset. apply (IHn (S i) st (done ++ [y]) xs); auto.
  - rewrite <- app_assoc. exact Hl.
  - rewrite length_app. simpl. lia.
Qed.

Lemma resolve_dref (k : nat) (p : string) (c : val) (st : state) :
  resolve k (DRef p) c st = reference_resolve p c st.
Proof. destruct k; reflexivity. Qed.

Lemma list_setitem_only_lookups (l i : nat) (v : val) (st : state) :
  only_lookups st (rstate (list_setitem l i v st)).
Proof.
  unfold list_setitem.
  destruct (heap st !! l) as [[] |]; try destruct (decide _); simpl;
    first [apply only_lookups_refl | apply only_lookups_set_heap].
Qed.

Lemma list_loop_only_lookups (k l : nat) (c : val) :
  forall n i st, only_lookups st (rstate (list_loop (resolve k) l c n i st)).
Proof.
  induction n as [| n IH]; intros i st; simpl; [apply only_lookups_refl |].
  destruct (heap st !! l) as [[] |]; simpl; try apply only_lookups_refl.
  destruct (items !! i) as [x |]; simpl; [| apply only_lookups_refl].
  pose proof (resolve_only_lookups k (normalize_dependency (heap st) x) c st) as H1.
  destruct (resolve k (normalize_dependency (heap st) x) c st) as [a s1 | e s1];
    simpl in *; [| exact H1].
  pose proof (list_setitem_only_lookups l i a s1) as H2.
  destruct (list_setitem l i a s1) as [u s2 | e s2]; simpl in *;
    [| eapply only_lookups_trans; eauto].
  eapply only_lookups_trans; [exact H1 |]. eapply only_lookups_trans; [exact H2 | apply IH].
Qed.

(** C3 (amended): once a [List] has been resolved, a second [resolve] with
    the same recursion budget performs no lookup and changes nothing when
    no resolved entry is a string or an object exposing [resolve]; but the
    resolved entries are normalized again, so when the first resolved entry
    is a string, the second [resolve] starts by looking up its first
    dot-separated segment on the container, as a [Reference]. *)
Theorem list_second_resolve (fuel l : nat) (c : val) (st st1 : state) (r : val)
    (xs ys : list val) :
  heap st !! l = Some (OList xs) ->
  resolve fuel (DObj (VLoc l)) c st = ROk r st1 ->
  heap st1 !! l = Some (OList ys) ->
  (forallb (inert (heap st1)) ys = true ->
   resolve fuel (DObj (VLoc l)) c st1 = ROk (VLoc l) st1) /\
  (forall s ys', ys = VStr s :: ys' ->
   exists seg evs, head (split_dot s) = Some seg /\
     trace (rstate (resolve fuel (DObj (VLoc l)) c st1)) =
       (trace st1 ++ EGetattr c seg :: evs)%list).
Proof.
  intros Hl Hrun Hl1.
  destruct fuel as [| k]; simpl in Hrun; rewrite Hl in Hrun; [discriminate |].
  split.
  - intros Hin. simpl. rewrite Hl1.
    apply (list_loop_inert k c l (length ys) 0 st1 [] ys); auto.
  - intros s ys' ->.
    destruct (split_dot_cons s) as (seg & segs & Hs).
    assert (Hw : only_lookups (log (EGetattr c seg) st1) (rstate (reference_resolve s c st1))).
    { unfold reference_resolve. rewrite Hs. cbn [walk]. unfold bind, getattr.
      destruct (lookup_attr (heap st1) c seg); simpl;
        [apply walk_only_lookups | apply only_lookups_refl]. }
    assert (Hfin : only_lookups (rstate (reference_resolve s c st1))
                     (rstate (resolve (S k) (DObj (VLoc l)) c st1))).
    { cbn [resolve]. rewrite Hl1. cbn [length list_loop]. rewrite Hl1.
      change ((VStr s :: ys') !! 0) with (Some (VStr s)). cbv beta iota.
      change (normalize_dependency (heap st1) (VStr s)) with (DRef s).
      rewrite resolve_dref.
      destruct (reference_resolve s c st1) as [r0 s1 | e s1]; simpl; [| apply only_lookups_refl].
      pose proof (list_setitem_only_lookups l 0 r0 s1) as H2.
      destruct (list_setitem l 0 r0 s1) as [u s2 | e s2]; simpl in *; [| exact H2].
      eapply only_lookups_trans; [exact H2 | apply list_loop_only_lookups]. }
    destruct (only_lookups_trans _ _ _ Hw Hfin) as [_ (evs & Ht & _)].
    exists seg, evs. split; [rewrite Hs; reflexivity |].
    rewrite Ht. simpl. rewrite <- app_assoc. reflexivity.
Qed.

Lemma list_second_resolve_witness :
  resolve 10 (DObj (VLoc 2)) (VLoc 1)
      (rstate (resolve 10 (DObj (VLoc 2)) (VLoc 1) int_list_state)) =
    ROk (VLoc 2) (rstate (resolve 10 (DObj (VLoc 2)) (VLoc 1) int_list_state)) /\
  exists seg evs, head (split_dot "hello") = Some seg /\
    trace (rstate (resolve 10 (DObj (VLoc 2)) (VLoc 1)
                     (rstate (resolve 10 (DObj (VLoc 2)) (VLoc 1) list_state)))) =
      (trace (rstate (resolve 10 (DObj (VLoc 2)) (VLoc 1) list_state))
         ++ EGetattr (VLoc 1) seg :: evs)%list.
Proof.
  assert (H1 : heap int_list_state !! 2 = Some (OList [VStr "hello"])) by reflexivity.
  assert (H2 : resolve 10 (DObj (VLoc 2)) (VLoc 1) int_list_state =
               ROk (VLoc 2) (rstate (resolve 10 (DObj (VLoc 2)) (VLoc 1) int_list_state)))
    by (vm_compute; reflexivity).
  assert (H3 : heap (rstate (resolve 10 (DObj (VLoc 2)) (VLoc 1) int_list_state)) !! 2 =
               Some (OList [VInt 5])) by (vm_compute; reflexivity).
  assert (H4 : forallb (inert (heap (rstate (resolve 10 (DObj (VLoc 2)) (VLoc 1)
                 int_list_state)))) [VInt 5] = true) by (vm_compute; reflexivity).
  assert (G1 : heap list_state !! 2 = Some (OList [VStr "greeting"])) by reflexivity.
  assert (G2 : resolve 10 (DObj (VLoc 2)) (VLoc 1) list_state =
               ROk (VLoc 2) (rstate (resolve 10 (DObj (VLoc 2)) (VLoc 1) list_state)))
    by (vm_compute; reflexivity).
  assert (G3 : heap (rstate (resolve 10 (DObj (VLoc 2)) (VLoc 1) list_state)) !! 2 =
               Some (OList [VStr "hello"])) by (vm_compute; reflexivity).
  split.
  - exact (proj1 (list_second_resolve 10 2 (VLoc 1) int_list_state _ (VLoc 2) _ _ H1 H2 H3) H4).
  - exact (proj2 (list_second_resolve 10 2 (VLoc 1) list_state _ (VLoc 2) _ _ G1 G2 G3)
             "hello" [] eq_refl).
Defined.

(** ** Reads through the descriptor *)

Lemma count_calls_app (a b : list event) :
  count_calls (a ++ b) = count_calls a + count_calls b.
Proof. unfold count_calls. rewrite List.filter_app, length_app. reflexivity. Qed.

Lemma count_calls_lookups (evs : list event) : Forall lookup_event evs -> count_calls evs = 0.
Proof. induction 1 as [| ev evs (o & n & ->) _ IH]; [reflexivity | exact IH]. Qed.

Lemma resolve_args_only_lookups (fuel : nat) (c : val) (args : list val) :
  forall st, only_lookups st (rstate (resolve_args fuel c args st)).
Proof.
  induction args as [| a args IH]; intros st; [apply only_lookups_refl |].
  simpl. unfold bind, resolve_raw, ret.
  pose proof (resolve_only_lookups fuel (normalize_dependency (heap st) a) c st) as H.
  destruct (resolve fuel (normalize_dependency (heap st) a) c st) as [v st1 | e st1];
    simpl in *; [| exact H].
  specialize (IH st1).
  destruct (resolve_args fuel c args st1) as [vs st2 | e st2]; simpl in *;
    eapply only_lookups_trans; eauto.
Qed.

Lemma cache_get_state (d : nat) (inst : val) (st st' : state) (x : option val) :
  cache_get d inst st = ROk x st' -> st' = st.
Proof. unfold cache_get. destruct (hash_key (heap st) inst); congruence. Qed.

(** A read that returns a value leaves that value in the cache, under a key
    that the instance matches. *)
Lemma descriptor_get_cached (fuel : nat) (f : factory) (arg_spec : list val)
    (attr_spec : list (string * val)) (d : nat) (inst v : val) (st st1 : state) :
  descriptor_get fuel f arg_spec attr_spec d (Some inst) st = ROk (GValue v) st1 ->
  cache_get d inst st1 = ROk (Some v) st1.
Proof.
  unfold descriptor_get, bind, ret, raise.
  destruct (cache_get d inst st) as [[c |] s | e s] eqn:Hc; try discriminate.
  - pose proof (cache_get_state _ _ _ _ _ Hc) as ->. intros H. injection H as -> ->.
    exact Hc.
  - destruct (inject fuel f inst arg_spec attr_spec s) as [t s1 | e s1]; [| discriminate].
    destruct (cache_set d inst t s1) as [[] s2 | e s2]; [| discriminate].
    destruct (cache_get d inst s2) as [[v' |] s3 | e s3] eqn:Hc3; try discriminate.
    pose proof (cache_get_state _ _ _ _ _ Hc3) as ->. intros H. injection H as -> ->.
    exact Hc3.
Qed.

Lemma cache_set_trace (d : nat) (inst v : val) (st st' : state) (u : unit) :
  cache_set d inst v st = ROk u st' -> trace st' = trace st.
Proof. unfold cache_set. destruct (hash_key (heap st) inst); intros H; inversion H; auto. Qed.

(** A successful injection had no named arguments, called the factory once
    and left the caches alone. *)
Lemma inject_one_call (fuel : nat) (f : factory) (c : val) (arg_spec : list val)
    (attr_spec : list (string * val)) (st st1 : state) (t : val) :
  inject fuel f c arg_spec attr_spec st = ROk t st1 ->
  attr_spec = [] /\ caches st1 = caches st /\
  count_calls (trace st1) = S (count_calls (trace st)).
Proof.
  unfold inject, bind, ret, raise. destruct attr_spec as [| a rest]; simpl; [| discriminate].
  pose proof (resolve_args_only_lookups fuel c arg_spec st) as [Hc (evs & Ht & Hf)].
  destruct (resolve_args fuel c arg_spec st) as [args s1 | e s1]; simpl in *; [| discriminate].
  unfold call_factory. destruct (f args (heap (log (ECall args) s1))) as [t' h | e h];
    [| discriminate].
  simpl. intros H. injection H as -> <-. simpl. split; [reflexivity | split; [exact Hc |]].
  rewrite Ht, !count_calls_app, (count_calls_lookups evs Hf). unfold count_calls at 2. simpl. lia.
Qed.

(** C6: reading the descriptor through the class gives the descriptor
    itself; for an owning instance, a first read that finds no cached entry
    and returns a value calls the factory exactly once, and a second read
    returns the same object without calling it again or changing anything. *)
Theorem descriptor_read_twice (fuel : nat) (f : factory) (arg_spec : list val)
    (attr_spec : list (string * val)) (d : nat) (inst v : val) (st st1 : state) :
  descriptor_get fuel f arg_spec attr_spec d None st = ROk (GDescriptor d) st /\
  (cache_get d inst st = ROk None st ->
   descriptor_get fuel f arg_spec attr_spec d (Some inst) st = ROk (GValue v) st1 ->
   descriptor_get fuel f arg_spec attr_spec d (Some inst) st1 = ROk (GValue v) st1 /\
   count_calls (trace st1) = S (count_calls (trace st))).
Proof.
  split; [reflexivity |]. intros Hmiss Hrun. split.
  - pose proof (descriptor_get_cached fuel f arg_spec attr_spec d inst v st st1 Hrun) as Hc.
    unfold descriptor_get. unfold bind at 1. rewrite Hc. reflexivity.
  - unfold descriptor_get, bind, ret, raise in Hrun. rewrite Hmiss in Hrun.
    destruct (inject fuel f inst arg_spec attr_spec st) as [t s1 | e s1] eqn:Hinj;
      [| discriminate].
    destruct (cache_set d inst t s1) as [u s2 | e s2] eqn:Hset; [| discriminate].
    destruct (cache_get d inst s2) as [[v' |] s3 | e s3] eqn:Hc3; try discriminate.
    injection Hrun as _ <-.
    rewrite (cache_get_state _ _ _ _ _ Hc3), (cache_set_trace _ _ _ _ _ _ Hset).
    apply (inject_one_call _ _ _ _ _ _ _ _ Hinj).
Qed.

Lemma descriptor_read_twice_witness :
  cache_get 5 (VLoc 1) sample_state = ROk None sample_state /\
  descriptor_get 10 alloc_factory [VStr "greeting"] [] 5 (Some (VLoc 1)) sample_state =
    ROk (GValue (VLoc 2))
      (rstate (descriptor_get 10 alloc_factory [VStr "greeting"] [] 5 (Some (VLoc 1))
                 sample_state)) /\
  descriptor_get 10 alloc_factory [VStr "greeting"] [] 5 (Some (VLoc 1))
    (rstate (descriptor_get 10 alloc_factory [VStr "greeting"] [] 5 (Some (VLoc 1))
               sample_state)) =
    ROk (GValue (VLoc 2))
      (rstate (descriptor_get 10 alloc_factory [VStr "greeting"] [] 5 (Some (VLoc 1))
                 sample_state)).
Proof.
  assert (H1 : cache_get 5 (VLoc 1) sample_state = ROk None sample_state)
    by (vm_compute; reflexivity).
  assert (H2 : descriptor_get 10 alloc_factory [VStr "greeting"] [] 5 (Some (VLoc 1))
                 sample_state =
               ROk (GValue (VLoc 2))
                 (rstate (descriptor_get 10 alloc_factory [VStr "greeting"] [] 5
                            (Some (VLoc 1)) sample_state)))
    by (vm_compute; reflexivity).
  split; [exact H1 | split; [exact H2 |]].
  exact (proj1 (proj2 (descriptor_read_twice 10 alloc_factory [VStr "greeting"] [] 5
                         (VLoc 1) (VLoc 2) sample_state _) H1 H2)).
Defined.

(** ** A raising factory *)

(** The events of an injection: attribute lookups, then either a factory
    call that raised, ending the run with that exception, or at most one
    factory call that returned. *)
Lemma inject_events (fuel : nat) (f : factory) (c : val) (arg_spec : list val)
    (attr_spec : list (string * val)) (st : state) :
  exists evs,
    trace (rstate (inject fuel f c arg_spec attr_spec st)) = (trace st ++ evs)%list /\
    caches (rstate (inject fuel f c arg_spec attr_spec st)) = caches st /\
    ((exists e0 evs0 args, evs = (evs0 ++ [ECall args; EFactoryRaised e0])%list /\
        Forall lookup_event evs0 /\
        inject fuel f c arg_spec attr_spec st =
          RErr e0 (rstate (inject fuel f c arg_spec attr_spec st)))
     \/ Forall lookup_or_call evs).
Proof.
  unfold inject, bind, ret, raise. destruct attr_spec as [| a rest]; simpl.
  2:{ exists []. rewrite app_nil_r. split; [reflexivity | split; [reflexivity |]].
      right. constructor. }
  pose proof (resolve_args_only_lookups fuel c arg_spec st) as [Hc (evs & Ht & Hf)].
  assert (Hf' : Forall lookup_or_call evs).
  { apply List.Forall_forall. intros ev Hin. left. exact (proj1 (List.Forall_forall _ _) Hf ev Hin). }
  destruct (resolve_args fuel c arg_spec st) as [args s1 | e s1]; simpl in *.
  - unfold call_factory. destruct (f args (heap (log (ECall args) s1))) as [t h | e0 h]; simpl.
    + exists (evs ++ [ECall args])%list. rewrite Ht, app_assoc.
      split; [reflexivity | split; [exact Hc |]]. right.
      apply Forall_app. split; [exact Hf' | constructor; [right; eauto | constructor]].
    + exists (evs ++ [ECall args; EFactoryRaised e0])%list. rewrite Ht, <- !app_assoc.
      split; [simpl; reflexivity | split; [exact Hc |]]. left. exists e0, evs, args. auto.
  - exists evs. split; [exact Ht | split; [exact Hc |]]. right. exact Hf'.
Qed.

Lemma factory_raised_not_lookup_or_call (e : exn) (evs : list event) :
  Forall lookup_or_call evs -> ~ In (EFactoryRaised e) evs.
Proof.
  intros Hf Hin. pose proof (proj1 (List.Forall_forall _ _) Hf _ Hin) as [(o & n & H) | (a & H)];
    discriminate.
Qed.

Lemma inject_factory_raised (fuel : nat) (f : factory) (c : val) (arg_spec : list val)
    (attr_spec : list (string * val)) (st : state) (e : exn) (evs : list event) :
  trace (rstate (inject fuel f c arg_spec attr_spec st)) = (trace st ++ evs)%list ->
  In (EFactoryRaised e) evs ->
  inject fuel f c arg_spec attr_spec st =
    RErr e (rstate (inject fuel f c arg_spec attr_spec st)) /\
  Forall (fun ev => is_setattr ev = false) evs /\
  caches (rstate (inject fuel f c arg_spec attr_spec st)) = caches st.
Proof.
  intros Ht Hin.
  destruct (inject_events fuel f c arg_spec attr_spec st)
    as (evs1 & Ht1 & Hc & [(e0 & evs0 & args & -> & Hf & Hr) | Hf]);
    rewrite Ht1 in Ht; apply app_inv_head in Ht; subst evs.
  - assert (e = e0) as ->.
    { apply in_app_or in Hin as [Hin | [Hin | [Hin | []]]]; try congruence.
      pose proof (proj1 (List.Forall_forall _ _) Hf _ Hin) as (o & n & H); discriminate. }
    split; [exact Hr | split; [| exact Hc]].
    apply Forall_app. split.
    + apply List.Forall_forall. intros ev Hev.
      destruct (proj1 (List.Forall_forall _ _) Hf ev Hev) as (o & n & ->). reflexivity.
    + repeat constructor.
  - exfalso. exact (factory_raised_not_lookup_or_call e _ Hf Hin).
Qed.

Lemma cache_get_rstate (d : nat) (inst : val) (st : state) :
  rstate (cache_get d inst st) = st.
Proof. unfold cache_get. destruct (hash_key (heap st) inst); reflexivity. Qed.

Lemma cache_set_rtrace (d : nat) (inst v : val) (st : state) :
  trace (rstate (cache_set d inst v st)) = trace st.
Proof. unfold cache_set. destruct (hash_key (heap st) inst); reflexivity. Qed.

Lemma app_eq_self (A : Type) (l evs : list A) : l = (l ++ evs)%list -> evs = [].
Proof. intros H. apply (app_inv_head l). rewrite app_nil_r. symmetry. exact H. Qed.

(** C7: when the target factory raises during [inject], the run ends with
    that very exception, no [setattr] happened, and no cache was written;
    the same holds for a read through the descriptor that triggered the
    injection. *)
Theorem factory_error_propagates (fuel : nat) (f : factory) (c : val) (arg_spec : list val)
    (attr_spec : list (string * val)) (d : nat) (inst : val) (st : state) (e : exn)
    (evs evs' : list event) :
  (trace (rstate (inject fuel f c arg_spec attr_spec st)) = (trace st ++ evs)%list ->
   In (EFactoryRaised e) evs ->
   inject fuel f c arg_spec attr_spec st =
     RErr e (rstate (inject fuel f c arg_spec attr_spec st)) /\
   Forall (fun ev => is_setattr ev = false) evs) /\
  (trace (rstate (descriptor_get fuel f arg_spec attr_spec d (Some inst) st)) =
     (trace st ++ evs')%list ->
   In (EFactoryRaised e) evs' ->
   descriptor_get fuel f arg_spec attr_spec d (Some inst) st =
     RErr (A := got) e (rstate (descriptor_get fuel f arg_spec attr_spec d (Some inst) st)) /\
   Forall (fun ev => is_setattr ev = false) evs' /\
   caches (rstate (descriptor_get fuel f arg_spec attr_spec d (Some inst) st)) = caches st).
Proof.
  split.
  - intros Ht Hin. pose proof (inject_factory_raised fuel f c arg_spec attr_spec st e evs Ht Hin)
      as (Hr & Hs & _). split; assumption.
  - unfold descriptor_get, bind, ret, raise.
    pose proof (cache_get_rstate d inst st) as Hcs.
    destruct (cache_get d inst st) as [[v |] s | e1 s]; simpl in Hcs; subst s.
    + intros Ht Hin. apply app_eq_self in Ht. subst evs'. destruct Hin.
    + pose proof (inject_events fuel f inst arg_spec attr_spec st)
        as (evs1 & Ht1 & Hc1 & Hcase).
      destruct (inject fuel f inst arg_spec attr_spec st) as [t s1 | e1 s1] eqn:Hinj.
      * destruct Hcase as [(e0 & evs0 & args & _ & _ & Hr) | Hf]; [discriminate |].
        simpl in Ht1.
        pose proof (cache_set_rtrace d inst t s1) as Hs.
        destruct (cache_set d inst t s1) as [u s2 | e2 s2]; simpl in Hs |- *;
          [pose proof (cache_get_rstate d inst s2) as Hg;
           destruct (cache_get d inst s2) as [[v' |] s3 | e3 s3]; simpl in Hg |- *; subst s3 |];
          intros Ht Hin; exfalso;
          rewrite ?Hs, Ht1 in Ht; apply app_inv_head in Ht; subst evs';
          exact (factory_raised_not_lookup_or_call e _ Hf Hin).
      * intros Ht Hin. simpl in Ht |- *.
        pose proof (inject_factory_raised fuel f inst arg_spec attr_spec st e evs') as H.
        rewrite Hinj in H. simpl in H. destruct (H Ht Hin) as (Hr & Hs & Hc).
        injection Hr as ->. auto.
    + intros Ht Hin. apply app_eq_self in Ht. subst evs'. destruct Hin.
Qed.

Lemma factory_error_propagates_witness :
  inject 10 raising_factory (VLoc 1) [VStr "greeting"] [] sample_state =
    RErr (Raised (VInt 1))
      (rstate (inject 10 raising_factory (VLoc 1) [VStr "greeting"] [] sample_state)) /\
  caches (rstate (descriptor_get 10 raising_factory [VStr "greeting"] [] 5 (Some (VLoc 1))
                    sample_state)) = caches sample_state.
Proof.
  assert (H1 : trace (rstate (inject 10 raising_factory (VLoc 1) [VStr "greeting"] []
                                sample_state)) =
               (trace sample_state ++ [EGetattr (VLoc 1) "greeting"; ECall [VStr "hello"];
                                       EFactoryRaised (Raised (VInt 1))])%list)
    by (vm_compute; reflexivity).
  assert (H2 : In (EFactoryRaised (Raised (VInt 1)))
                 [EGetattr (VLoc 1) "greeting"; ECall [VStr "hello"];
                  EFactoryRaised (Raised (VInt 1))]) by (simpl; auto).
  assert (H3 : trace (rstate (descriptor_get 10 raising_factory [VStr "greeting"] [] 5
                                (Some (VLoc 1)) sample_state)) =
               (trace sample_state ++ [EGetattr (VLoc 1) "greeting"; ECall [VStr "hello"];
                                       EFactoryRaised (Raised (VInt 1))])%list)
    by (vm_compute; reflexivity).
  destruct (factory_error_propagates 10 raising_factory (VLoc 1) [VStr "greeting"] [] 5
              (VLoc 1) sample_state (Raised (VInt 1))
              [EGetattr (VLoc 1) "greeting"; ECall [VStr "hello"]; EFactoryRaised (Raised (VInt 1))]
              [EGetattr (VLoc 1) "greeting"; ECall [VStr "hello"]; EFactoryRaised (Raised (VInt 1))])
    as [Ha Hb].
  split; [exact (proj1 (Ha H1 H2)) | exact (proj2 (proj2 (Hb H3 H2)))].
Defined.

(** ** The descriptor cache *)





(** * Further properties of the code *)

(** ** Positional arguments of [inject] *)

Lemma normalize_inert (h : gmap nat obj) (v : val) :
  inert h v = true -> normalize_dependency h v = DVal v.
Proof.
  unfold inert, normalize_dependency. intros Hy. apply andb_prop in Hy as [Hr Hs].
  destruct (has_resolve h v); [discriminate |]. destruct v; simpl in Hs; congruence.
Qed.

Lemma resolve_args_inert (fuel : nat) (c : val) (args : list val) (st : state) :
  forallb (inert (heap st)) args = true -> resolve_args fuel c args st = ROk args st.
Proof.
  induction args as [| a args IH]; intros H; [reflexivity |].
  simpl in H. apply andb_prop in H as [Ha H].
  simpl. unfold bind, resolve_raw, ret. rewrite normalize_inert, resolve_dval by exact Ha.
  rewrite IH by exact H. reflexivity.
Qed.

(** X3: positional arguments that are neither strings nor objects exposing
    [resolve] reach the factory unchanged: with such arguments and no named
    ones, [inject] is exactly one call of the factory on them, with no
    attribute lookup before it and nothing done after it. *)
Theorem inject_literal_args (fuel : nat) (f : factory) (c : val) (args : list val)
    (st : state) :
  forallb (inert (heap st)) args = true ->
  inject fuel f c args [] st = call_factory f args st.
Proof.
  intros H. unfold inject, bind, ret. simpl. rewrite resolve_args_inert by exact H.
  destruct (call_factory f args st); reflexivity.
Qed.

Lemma inject_literal_args_witness :
  forallb (inert (heap sample_state)) [VInt 3; VNone] = true /\
  inject 10 namespace_factory (VLoc 1) [VInt 3; VNone] [] sample_state =
    call_factory namespace_factory [VInt 3; VNone] sample_state.
Proof.
  assert (H : forallb (inert (heap sample_state)) [VInt 3; VNone] = true) by reflexivity.
  split; [exact H | exact (inject_literal_args 10 namespace_factory (VLoc 1) _ _ H)].
Defined.

Lemma resolve_args_app (fuel : nat) (c : val) (pre rest : list val) (st s0 : state)
    (vs : list val) :
  resolve_args fuel c pre st = ROk vs s0 ->
  resolve_args fuel c (pre ++ rest) st =
    match resolve_args fuel c rest s0 with
    | ROk ws s => ROk (vs ++ ws)%list s
    | RErr e s => RErr e s
    end.
Proof.
  revert st vs. induction pre as [| a pre IH]; intros st vs H.
  - injection H as <- <-. simpl. destruct (resolve_args fuel c rest st); reflexivity.
  - simpl in *. unfold bind, ret in *.
    destruct (resolve_raw fuel a c st) as [v s1 | e s1]; [| discriminate].
    destruct (resolve_args fuel c pre s1) as [vs' s2 | e s2] eqn:Hp; [| discriminate].
    injection H as <- ->. rewrite (IH s1 vs' Hp).
    destruct (resolve_args fuel c rest s0); reflexivity.
Qed.

(** X5: with no named definitions, positional definitions are resolved
    left to right and the first failure ends [inject]: it raises that
    error, the later definitions are not resolved and the factory is never
    called. *)
Theorem inject_first_arg_error (fuel : nat) (f : factory) (c : val)
    (pre post : list val) (a : val) (vs : list val) (e : exn) (st s0 s1 : state) :
  resolve_args fuel c pre st = ROk vs s0 ->
  resolve_raw fuel a c s0 = RErr e s1 ->
  inject fuel f c (pre ++ a :: post) [] st = RErr e s1 /\
  count_calls (trace s1) = count_calls (trace st).
Proof.
  intros Hpre Ha.
  assert (Hargs : resolve_args fuel c (pre ++ a :: post) st = RErr e s1).
  { rewrite (resolve_args_app fuel c pre (a :: post) st s0 vs Hpre). simpl.
    unfold bind. rewrite Ha. reflexivity. }
  split.
  - unfold inject, bind, ret. simpl. rewrite Hargs. reflexivity.
  - pose proof (resolve_args_only_lookups fuel c (pre ++ a :: post) st) as [_ (evs & Ht & Hf)].
    rewrite Hargs in Ht. simpl in Ht.
    rewrite Ht, count_calls_app, (count_calls_lookups evs Hf). lia.
Qed.

Lemma inject_first_arg_error_witness :
  inject 10 namespace_factory (VLoc 1) [VStr "greeting"; VStr "missing"; VStr "hello"] []
    sample_state =
    RErr (AttributeError (VLoc 1) "missing")
      (rstate (resolve_raw 10 (VStr "missing") (VLoc 1)
                 (rstate (resolve_args 10 (VLoc 1) [VStr "greeting"] sample_state)))).
Proof.
  assert (H1 : resolve_args 10 (VLoc 1) [VStr "greeting"] sample_state =
               ROk [VStr "hello"] (rstate (resolve_args 10 (VLoc 1) [VStr "greeting"] sample_state)))
    by (vm_compute; reflexivity).
  assert (H2 : resolve_raw 10 (VStr "missing") (VLoc 1)
                 (rstate (resolve_args 10 (VLoc 1) [VStr "greeting"] sample_state)) =
               RErr (AttributeError (VLoc 1) "missing")
                 (rstate (resolve_raw 10 (VStr "missing") (VLoc 1)
                            (rstate (resolve_args 10 (VLoc 1) [VStr "greeting"] sample_state)))))
    by (vm_compute; reflexivity).
  exact (proj1 (inject_first_arg_error 10 namespace_factory (VLoc 1) [VStr "greeting"]
                  [VStr "hello"] (VStr "missing") _ _ sample_state _ _ H1 H2)).
Defined.

(** ** Self-referential [List]s *)

Lemma list_loop_self (k : nat) (c : val) (l : nat) :
  forall n i st done xs,
  heap st !! l = Some (OList (done ++ xs)) -> length done = i -> length xs = n ->
  In (VLoc l) xs ->
  forall r st', list_loop (resolve k) l c n i st <> ROk r st'.
Proof.
  induction n as [| n IHn]; intros i st done xs Hl Hdone Hlen Hin r st' Hrun.
  - destruct xs; [destruct Hin | discriminate].
  - destruct xs as [| x xs]; [discriminate |]. simpl in Hlen. simpl in Hrun.
    rewrite Hl in Hrun.
    assert (Hx : (done ++ x :: xs) !! i = Some x).
    { subst i. rewrite lookup_app_r by lia. rewrite Nat.sub_diag. reflexivity. }
    rewrite Hx in Hrun.
    assert (He : entry_at (heap st) l i = Some x) by (unfold entry_at; rewrite Hl; exact Hx).
    assert (Hcomp : composite (heap st) l) by (unfold composite; rewrite Hl; exact I).
    destruct Hin as [-> | Hin].
    + (* the entry is the list itself: resolving it re-enters the loop *)
      assert (Hc : chain_ok (heap st) [(l, i)] l).
      { intros P p [Heq | []]. injection Heq as <- <-. exists l.
        split; [exact He | right; reflexivity]. }
      pose proof (entry_step k (resolve_chain k) c l i [(l, i)] (VLoc l) st Hcomp He Hc) as Hs.
      destruct (resolve k (normalize_dependency (heap st) (VLoc l)) c st) as [r0 st1 | e st1];
        [| discriminate].
      destruct Hs as [Hn _]. apply Hn. left. reflexivity.
    + assert (Hc : chain_ok (heap st) [] l) by (intros P p []).
      pose proof (entry_step k (resolve_chain k) c l i [] x st Hcomp He Hc) as Hs.
      destruct (resolve k (normalize_dependency (heap st) x) c st) as [r0 st1 | e st1];
        [| discriminate].
      destruct Hs as [_ Hheap].
      assert (Hl1 : heap st1 !! l = Some (OList (done ++ x :: xs)))
        by (rewrite Hheap; [exact Hl | left; reflexivity]).
      assert (Hset : list_setitem l i r0 st1 =
                     ROk tt (set_heap (<[l := OList (done ++ r0 :: xs)]> (heap st1)) st1)).
      { unfold list_setitem. rewrite Hl1. destruct (decide _) as [_ | Hi].
        - subst i. rewrite insert_app_length. reflexivity.
        - exfalso. apply Hi. rewrite length_app. simpl. lia. }
      rewrite Hset in Hrun.
      refine (IHn (S i) (set_heap (<[l := OList (done ++ r0 :: xs)]> (heap st1)) st1)
                (done ++ [r0]) xs _ _ _ Hin r st' Hrun).
      * simpl. rewrite lookup_insert_eq, <- app_assoc. reflexivity.
      * rewrite length_app. simpl. lia.
      * lia.
Qed.

(** X7: a [List] that contains itself never resolves: whatever the
    recursion budget, its [resolve] raises (in Python, [RecursionError]). *)
Theorem list_self_never_resolves (fuel l : nat) (c : val) (st : state) (xs : list val)
    (r : val) (st' : state) :
  heap st !! l = Some (OList xs) -> In (VLoc l) xs ->
  resolve fuel (DObj (VLoc l)) c st <> ROk r st'.
Proof.
  intros Hl Hin. destruct fuel as [| k]; simpl; rewrite Hl; [discriminate |].
  exact (list_loop_self k c l (length xs) 0 st [] xs Hl eq_refl eq_refl Hin r st').
Qed.

Lemma list_self_never_resolves_witness :
  ~ exists r st', resolve 10 (DObj (VLoc 2)) (VLoc 1) self_list_state = ROk r st'.
Proof.
  intros (r & st' & H).
  exact (list_self_never_resolves 10 2 (VLoc 1) self_list_state [VLoc 2] r st'
           eq_refl (or_introl eq_refl) H).
Defined.

(** ** The descriptor's cache *)

Lemma dict_find_store (h : gmap nat obj) (hk : hkey) (key v : val) (kvs : list (val * val)) :
  hash_key h key = Some hk -> dict_find h hk (dict_store h hk key v kvs) = Some v.
Proof.
  intros Hk. induction kvs as [| [k w] kvs IH]; simpl.
  - rewrite decide_True by exact Hk. reflexivity.
  - destruct (decide (hash_key h k = Some hk)) as [Hm | Hm]; simpl.
    + rewrite decide_True by exact Hm. reflexivity.
    + rewrite decide_False by exact Hm. exact IH.
Qed.

Lemma dict_find_store_other (h : gmap nat obj) (hk hk' : hkey) (key v : val)
    (kvs : list (val * val)) :
  hash_key h key = Some hk -> hk' <> hk ->
  dict_find h hk' (dict_store h hk key v kvs) = dict_find h hk' kvs.
Proof.
  intros Hk Hne. induction kvs as [| [k w] kvs IH]; simpl.
  - rewrite decide_False by congruence. reflexivity.
  - destruct (decide (hash_key h k = Some hk)) as [Hm | Hm]; simpl.
    + rewrite decide_False by congruence. rewrite decide_False by congruence. reflexivity.
    + destruct (decide (hash_key h k = Some hk')); [reflexivity | exact IH].
Qed.

Lemma cache_set_then_get (d : nat) (inst v : val) (st st' : state) (u : unit) :
  cache_set d inst v st = ROk u st' -> cache_get d inst st' = ROk (Some v) st'.
Proof.
  unfold cache_set. destruct (hash_key (heap st) inst) as [hk |] eqn:Hh; [| discriminate].
  intros H. injection H as _ <-. unfold cache_get, cache_of. simpl. rewrite Hh.
  rewrite lookup_insert_eq. simpl. rewrite dict_find_store by exact Hh. reflexivity.
Qed.


(** X8: [self.cache[instance] = v] followed by [self.cache[instance]] gives
    back [v]; instances with another hash key see the same entries as
    before, and the objects and the trace are left alone. *)
Theorem cache_set_get (d : nat) (inst v : val) (st st' : state) (u : unit) :
  cache_set d inst v st = ROk u st' ->
  cache_get d inst st' = ROk (Some v) st' /\
  heap st' = heap st /\ trace st' = trace st /\
  (forall other x, hash_key (heap st) other <> hash_key (heap st) inst ->
     cache_get d other st = ROk x st -> cache_get d other st' = ROk x st').
Proof.
  intros H. split; [exact (cache_set_then_get d inst v st st' u H) |].
  unfold cache_set in H. destruct (hash_key (heap st) inst) as [hk |] eqn:Hh; [| discriminate].
  injection H as _ <-. split; [reflexivity | split; [reflexivity |]].
  intros other x Hne Hx. unfold cache_get in *. simpl.
  destruct (hash_key (heap st) other) as [hk' |]; [| discriminate].
  injection Hx as <-. unfold cache_of. simpl. rewrite lookup_insert_eq. simpl.
  rewrite (dict_find_store_other _ _ _ _ _ _ Hh) by congruence. reflexivity.
Qed.

Lemma cache_set_get_witness :
  cache_set 5 (VLoc 1) (VInt 9) equal_owners_state =
    ROk tt (rstate (cache_set 5 (VLoc 1) (VInt 9) equal_owners_state)) /\
  cache_get 5 (VLoc 1) (rstate (cache_set 5 (VLoc 1) (VInt 9) equal_owners_state)) =
    ROk (Some (VInt 9)) (rstate (cache_set 5 (VLoc 1) (VInt 9) equal_owners_state)).
Proof.
  assert (H : cache_set 5 (VLoc 1) (VInt 9) equal_owners_state =
              ROk tt (rstate (cache_set 5 (VLoc 1) (VInt 9) equal_owners_state)))
    by reflexivity.
  split; [exact H | exact (proj1 (cache_set_get 5 (VLoc 1) (VInt 9) _ _ tt H))].
Defined.

(** X9: on a cache miss, a read whose injection succeeds returns the very
    object [inject] built (the second [self.cache[instance]] never raises
    [KeyError]) and leaves it cached for the instance, provided the instance
    is still hashable after the factory ran. *)
Theorem descriptor_miss_returns_injected (fuel : nat) (f : factory) (arg_spec : list val)
    (attr_spec : list (string * val)) (d : nat) (inst t : val) (st s1 : state) :
  cache_get d inst st = ROk None st ->
  inject fuel f inst arg_spec attr_spec st = ROk t s1 ->
  hash_key (heap s1) inst <> None ->
  exists s2, descriptor_get fuel f arg_spec attr_spec d (Some inst) st = ROk (GValue t) s2 /\
    heap s2 = heap s1 /\ trace s2 = trace s1 /\ cache_get d inst s2 = ROk (Some t) s2.
Proof.
  intros Hmiss Hinj Hh. unfold descriptor_get, bind, ret, raise. rewrite Hmiss, Hinj.
  destruct (cache_set d inst t s1) as [u s2 | e s2] eqn:Hset.
  - pose proof (cache_set_then_get d inst t s1 s2 u Hset) as Hg. rewrite Hg.
    exists s2. split; [reflexivity |]. split; [| split; [| exact Hg]].
    + unfold cache_set in Hset. destruct (hash_key (heap s1) inst); [| discriminate].
      injection Hset as _ <-. reflexivity.
    + exact (cache_set_trace d inst t s1 s2 u Hset).
  - exfalso. unfold cache_set in Hset. destruct (hash_key (heap s1) inst); [discriminate |].
    apply Hh. reflexivity.
Qed.

Lemma descriptor_miss_returns_injected_witness :
  exists s2,
    descriptor_get 10 alloc_factory [] [] 5 (Some (VLoc 1)) equal_owners_state =
      ROk (GValue (VLoc 3)) s2 /\
    cache_get 5 (VLoc 1) s2 = ROk (Some (VLoc 3)) s2.
Proof.
  assert (H1 : cache_get 5 (VLoc 1) equal_owners_state = ROk None equal_owners_state)
    by (vm_compute; reflexivity).
  assert (H2 : inject 10 alloc_factory (VLoc 1) [] [] equal_owners_state =
               ROk (VLoc 3) (rstate (inject 10 alloc_factory (VLoc 1) [] [] equal_owners_state)))
    by (vm_compute; reflexivity).
  assert (H3 : hash_key (heap (rstate (inject 10 alloc_factory (VLoc 1) [] []
                                        equal_owners_state))) (VLoc 1) <> None)
    by (vm_compute; discriminate).
  destruct (descriptor_miss_returns_injected 10 alloc_factory [] [] 5 (VLoc 1) (VLoc 3)
              equal_owners_state _ H1 H2 H3) as (s2 & Hr & _ & _ & Hg).
  exists s2. split; [exact Hr | exact Hg].
Defined.



(** X11: an accessor built with named definitions never produces an object:
    a read returns what is already cached for the instance, and otherwise
    raises [TypeError] without calling the factory or changing anything. *)
Theorem descriptor_named_spec (fuel : nat) (f : factory) (arg_spec : list val)
    (key : string) (raw : val) (rest : list (string * val)) (d : nat) (inst : val)
    (st : state) :
  descriptor_get fuel f arg_spec ((key, raw) :: rest) d (Some inst) st =
    match cache_get d inst st with
    | ROk (Some v) s => ROk (GValue v) s
    | _ => RErr TypeError st
    end.
Proof.
  unfold descriptor_get, bind, ret, raise.
  pose proof (cache_get_rstate d inst st) as Hcs.
  destruct (cache_get d inst st) as [[v |] s | e1 s] eqn:Hc; simpl in Hcs; subst s;
    [reflexivity | reflexivity |].
  unfold cache_get in Hc. destruct (hash_key (heap st) inst); congruence.
Qed.
